(** * ConvBot: the live conversational audio session orchestrator

    A shallow embedding of [src/services/geminiService.ts] (class
    [GeminiService]) together with the record types of [types.ts] and the two
    callbacks [src/App.tsx] hands to the service, and the properties of the
    session orchestrator proved over it.

    Conventions of the embedding.

    - The private fields of the class form the record [GeminiService]; every
      method is a command [Cmd]: a function from the fields before the call to
      the fields after it and the ordered list of effects the call performed
      on its collaborators (the two caller-facing callbacks, the audio cues,
      the transport handle, the audio graph).
    - Handlers run to completion.  Where a handler awaits an answer of the
      environment (the microphone grant, the decoded buffer, the audio clock)
      the answer is an argument of the handler.
    - The audio clock and buffer durations are JavaScript numbers; they are
      idealised here as rationals.
    - Strings are sequences of 8-bit characters; [toLowerCase] acts on the
      ASCII letters.
    - A property the service reads without a guard may be missing; the value
      read is then [undefined], and it is carried as such. *)

From Stdlib Require Import String Ascii List Bool Arith PeanoNat Lia.
From Stdlib Require Import QArith Qminmax Lqa.
Import ListNotations.

Local Close Scope Q_scope.
Local Open Scope string_scope.
Local Open Scope list_scope.

(** ** JavaScript strings *)

(** What a slot declared [string] holds at run time: a string, or
    [undefined] when it was assigned a property that is missing. *)
Inductive Text :=
| defined (s : string)
| undefined.

Coercion defined : string >-> Text.

Module Js.

(** A value is truthy when it is a string other than the empty one. *)
Definition truthy (t : Text) : bool :=
  match t with
  | defined (String _ _) => true
  | _ => false
  end.

(** The value of an optional string property. *)
Definition ofOption (o : option string) : Text :=
  match o with
  | Some s => defined s
  | None => undefined
  end.

(** The string a value contributes when it is appended with [+=]. *)
Definition toString (t : Text) : string :=
  match t with
  | defined s => s
  | undefined => "undefined"
  end.

(** [a || b] where [a] may be [undefined]. *)
Definition or (a : option string) (b : string) : string :=
  match a with
  | Some s => if truthy s then s else b
  | None => b
  end.

Definition lowerChar (c : ascii) : ascii :=
  let n := nat_of_ascii c in
  if ((65 <=? n)%nat && (n <=? 90)%nat)%bool then ascii_of_nat (n + 32) else c.

Fixpoint toLowerCase (s : string) : string :=
  match s with
  | EmptyString => EmptyString
  | String c s' => String (lowerChar c) (toLowerCase s')
  end.

Fixpoint startsWith (s p : string) {struct p} : bool :=
  match p, s with
  | EmptyString, _ => true
  | String a p', String b s' => Ascii.eqb a b && startsWith s' p'
  | String _ _, EmptyString => false
  end.

(** [s.includes(p)]. *)
Fixpoint includes (s p : string) : bool :=
  startsWith s p ||
  match s with
  | EmptyString => false
  | String _ s' => includes s' p
  end.

(** [Set.prototype.add] on a set kept in insertion order. *)
Definition setAdd (x : nat) (l : list nat) : list nat :=
  if existsb (Nat.eqb x) l then l else l ++ [x].

(** [Set.prototype.delete]. *)
Definition setDelete (x : nat) (l : list nat) : list nat :=
  filter (fun y => negb (Nat.eqb x y)) l.

End Js.

Arguments Js.truthy : simpl never.

(** ** types.ts *)

Inductive AppStatus :=
| IDLE | GREETING | LISTENING | PROCESSING | SPEAKING | ERROR.

Inductive Author := user | bot.

Record GroundingSource := {
  title : string;
  uri : string
}.

Record TranscriptTurn := {
  author : Author;
  text : Text;
  isFinal : bool;
  grounding : option (list GroundingSource)
}.

(** ** Inbound messages ([LiveServerMessage]), as far as the service reads them *)

Module Wire.

(** [text?: string]: the service reads it without a guard. *)
Record Transcription := { text : option string }.

(** The [web] or [maps] part of a grounding chunk. *)
Record Ref := { title : option string; uri : option string }.

Record GroundingChunk := { web : option Ref; maps : option Ref }.

Record GroundingMetadata := { groundingChunks : option (list GroundingChunk) }.

Record InlineData := { data : option string }.

Record Part := { inlineData : option InlineData }.

Record Content := { parts : option (list Part) }.

(** An absent boolean flag reads as [false]. *)
Record ServerContent := {
  interrupted : bool;
  inputTranscription : option Transcription;
  outputTranscription : option Transcription;
  groundingMetadata : option GroundingMetadata;
  modelTurn : option Content;
  turnComplete : bool
}.

Record LiveServerMessage := { serverContent : option ServerContent }.

End Wire.

Record ErrorEvent := { message : string }.

(** ** Collaborators *)

(** Objects handed out by the environment are told apart by a number. *)
Definition Handle := nat.
Definition SourceId := nat.
Definition Blob := nat.

Inductive AudioContextState := suspended | running | closed.

(** An [AudioContext], reduced to the attribute the service reads. *)
Record AudioContext := { state : AudioContextState }.

(** [ctx.close()]: the [state] attribute reads [closed] from the call on,
    which is what the guard of [stopSession] on that attribute relies on. *)
Definition AudioContext_close (ctx : AudioContext) : AudioContext :=
  {| state := closed |}.

Record AudioBuffer := { duration : Q }.

Inductive Cue := playStart | playStop | playError.

Inductive ContextRole := inputContext | outputContext.

(** The effects of the service on its collaborators. *)
Inductive Event :=
| onStatusUpdate (status : AppStatus) (msg : option string)
| onTranscriptUpdate (turn : TranscriptTurn)
| audioCue (c : Cue)
| sessionClose (session : Handle)
| tracksStop (stream : Handle)
| sourceDisconnect (node : Handle)
| processorDisconnect (node : Handle)
| contextClose (which : ContextRole)
| outputStop (source : SourceId)
| outputStart (source : SourceId) (when : Q)
| getUserMedia
| captureConnect (source processor : Handle)
| sendRealtimeInput (session : Handle) (media : Blob)
| unhandledRejection.

(** ** The fields of [GeminiService] *)

Record GeminiService := {
  session : option Handle;
  sessionPromise : option Handle;
  inputAudioContext : option AudioContext;
  outputAudioContext : option AudioContext;
  mediaStream : option Handle;
  scriptProcessor : option Handle;
  source : option Handle;
  outputSources : list SourceId;
  nextStartTime : Q;
  currentInputTranscription : Text;
  currentOutputTranscription : string;
  currentGrounding : list GroundingSource
}.

(** The field initialisers of the class. *)
Definition initialService : GeminiService := {|
  session := None;
  sessionPromise := None;
  inputAudioContext := None;
  outputAudioContext := None;
  mediaStream := None;
  scriptProcessor := None;
  source := None;
  outputSources := [];
  nextStartTime := 0%Q;
  currentInputTranscription := "";
  currentOutputTranscription := "";
  currentGrounding := []
|}.

Definition set_session (v : option Handle) (s : GeminiService) : GeminiService :=
  {| session := v; sessionPromise := sessionPromise s;
     inputAudioContext := inputAudioContext s; outputAudioContext := outputAudioContext s;
     mediaStream := mediaStream s; scriptProcessor := scriptProcessor s; source := source s;
     outputSources := outputSources s; nextStartTime := nextStartTime s;
     currentInputTranscription := currentInputTranscription s;
     currentOutputTranscription := currentOutputTranscription s;
     currentGrounding := currentGrounding s |}.

Definition set_sessionPromise (v : option Handle) (s : GeminiService) : GeminiService :=
  {| session := session s; sessionPromise := v;
     inputAudioContext := inputAudioContext s; outputAudioContext := outputAudioContext s;
     mediaStream := mediaStream s; scriptProcessor := scriptProcessor s; source := source s;
     outputSources := outputSources s; nextStartTime := nextStartTime s;
     currentInputTranscription := currentInputTranscription s;
     currentOutputTranscription := currentOutputTranscription s;
     currentGrounding := currentGrounding s |}.

Definition set_inputAudioContext (v : option AudioContext) (s : GeminiService) : GeminiService :=
  {| session := session s; sessionPromise := sessionPromise s;
     inputAudioContext := v; outputAudioContext := outputAudioContext s;
     mediaStream := mediaStream s; scriptProcessor := scriptProcessor s; source := source s;
     outputSources := outputSources s; nextStartTime := nextStartTime s;
     currentInputTranscription := currentInputTranscription s;
     currentOutputTranscription := currentOutputTranscription s;
     currentGrounding := currentGrounding s |}.

Definition set_outputAudioContext (v : option AudioContext) (s : GeminiService) : GeminiService :=
  {| session := session s; sessionPromise := sessionPromise s;
     inputAudioContext := inputAudioContext s; outputAudioContext := v;
     mediaStream := mediaStream s; scriptProcessor := scriptProcessor s; source := source s;
     outputSources := outputSources s; nextStartTime := nextStartTime s;
     currentInputTranscription := currentInputTranscription s;
     currentOutputTranscription := currentOutputTranscription s;
     currentGrounding := currentGrounding s |}.

Definition set_mediaStream (v : option Handle) (s : GeminiService) : GeminiService :=
  {| session := session s; sessionPromise := sessionPromise s;
     inputAudioContext := inputAudioContext s; outputAudioContext := outputAudioContext s;
     mediaStream := v; scriptProcessor := scriptProcessor s; source := source s;
     outputSources := outputSources s; nextStartTime := nextStartTime s;
     currentInputTranscription := currentInputTranscription s;
     currentOutputTranscription := currentOutputTranscription s;
     currentGrounding := currentGrounding s |}.

Definition set_scriptProcessor (v : option Handle) (s : GeminiService) : GeminiService :=
  {| session := session s; sessionPromise := sessionPromise s;
     inputAudioContext := inputAudioContext s; outputAudioContext := outputAudioContext s;
     mediaStream := mediaStream s; scriptProcessor := v; source := source s;
     outputSources := outputSources s; nextStartTime := nextStartTime s;
     currentInputTranscription := currentInputTranscription s;
     currentOutputTranscription := currentOutputTranscription s;
     currentGrounding := currentGrounding s |}.

Definition set_source (v : option Handle) (s : GeminiService) : GeminiService :=
  {| session := session s; sessionPromise := sessionPromise s;
     inputAudioContext := inputAudioContext s; outputAudioContext := outputAudioContext s;
     mediaStream := mediaStream s; scriptProcessor := scriptProcessor s; source := v;
     outputSources := outputSources s; nextStartTime := nextStartTime s;
     currentInputTranscription := currentInputTranscription s;
     currentOutputTranscription := currentOutputTranscription s;
     currentGrounding := currentGrounding s |}.

Definition set_outputSources (v : list SourceId) (s : GeminiService) : GeminiService :=
  {| session := session s; sessionPromise := sessionPromise s;
     inputAudioContext := inputAudioContext s; outputAudioContext := outputAudioContext s;
     mediaStream := mediaStream s; scriptProcessor := scriptProcessor s; source := source s;
     outputSources := v; nextStartTime := nextStartTime s;
     currentInputTranscription := currentInputTranscription s;
     currentOutputTranscription := currentOutputTranscription s;
     currentGrounding := currentGrounding s |}.

Definition set_nextStartTime (v : Q) (s : GeminiService) : GeminiService :=
  {| session := session s; sessionPromise := sessionPromise s;
     inputAudioContext := inputAudioContext s; outputAudioContext := outputAudioContext s;
     mediaStream := mediaStream s; scriptProcessor := scriptProcessor s; source := source s;
     outputSources := outputSources s; nextStartTime := v;
     currentInputTranscription := currentInputTranscription s;
     currentOutputTranscription := currentOutputTranscription s;
     currentGrounding := currentGrounding s |}.

Definition set_currentInputTranscription (v : Text) (s : GeminiService) : GeminiService :=
  {| session := session s; sessionPromise := sessionPromise s;
     inputAudioContext := inputAudioContext s; outputAudioContext := outputAudioContext s;
     mediaStream := mediaStream s; scriptProcessor := scriptProcessor s; source := source s;
     outputSources := outputSources s; nextStartTime := nextStartTime s;
     currentInputTranscription := v;
     currentOutputTranscription := currentOutputTranscription s;
     currentGrounding := currentGrounding s |}.

Definition set_currentOutputTranscription (v : string) (s : GeminiService) : GeminiService :=
  {| session := session s; sessionPromise := sessionPromise s;
     inputAudioContext := inputAudioContext s; outputAudioContext := outputAudioContext s;
     mediaStream := mediaStream s; scriptProcessor := scriptProcessor s; source := source s;
     outputSources := outputSources s; nextStartTime := nextStartTime s;
     currentInputTranscription := currentInputTranscription s;
     currentOutputTranscription := v;
     currentGrounding := currentGrounding s |}.

Definition set_currentGrounding (v : list GroundingSource) (s : GeminiService) : GeminiService :=
  {| session := session s; sessionPromise := sessionPromise s;
     inputAudioContext := inputAudioContext s; outputAudioContext := outputAudioContext s;
     mediaStream := mediaStream s; scriptProcessor := scriptProcessor s; source := source s;
     outputSources := outputSources s; nextStartTime := nextStartTime s;
     currentInputTranscription := currentInputTranscription s;
     currentOutputTranscription := currentOutputTranscription s;
     currentGrounding := v |}.

(** ** Commands: the fields threaded through a call, and the effects it performs *)

Definition Cmd := GeminiService -> GeminiService * list Event.

Definition skip : Cmd := fun s => (s, []).

Definition emit (e : Event) : Cmd := fun s => (s, [e]).

Definition assign (f : GeminiService -> GeminiService) : Cmd := fun s => (f s, []).

Definition andThen (c1 c2 : Cmd) : Cmd := fun s =>
  let (s1, t1) := c1 s in
  let (s2, t2) := c2 s1 in
  (s2, t1 ++ t2).

Notation "c1 ;; c2" := (andThen c1 c2) (at level 61, right associativity).

(** [if (b) { c }] *)
Definition when (b : bool) (c : Cmd) : Cmd := if b then c else skip.

(** A command that first reads a field. *)
Definition reading {A : Type} (f : GeminiService -> A) (k : A -> Cmd) : Cmd :=
  fun s => k (f s) s.

(** The state a call ends in, and the effects it performed. *)
Definition finalState {A : Type} (r : A * list Event) : A := fst r.
Definition trace {A : Type} (r : A * list Event) : list Event := snd r.

Definition emitAll (es : list Event) : Cmd := fun s => (s, es).

(** ** [stopSession] *)

Definition isClosed (ctx : AudioContext) : bool :=
  match state ctx with
  | closed => true
  | _ => false
  end.

Definition stopSession : Cmd :=
  emit (audioCue playStop) ;;
  reading session (fun v =>
    match v with
    | Some h => emit (sessionClose h) ;; assign (set_session None)
    | None => skip
    end) ;;
  reading mediaStream (fun v =>
    match v with
    | Some h => emit (tracksStop h) ;; assign (set_mediaStream None)
    | None => skip
    end) ;;
  reading source (fun v =>
    match v with
    | Some h => emit (sourceDisconnect h) ;; assign (set_source None)
    | None => skip
    end) ;;
  reading scriptProcessor (fun v =>
    match v with
    | Some h => emit (processorDisconnect h) ;; assign (set_scriptProcessor None)
    | None => skip
    end) ;;
  reading inputAudioContext (fun v =>
    match v with
    | Some ctx =>
        when (negb (isClosed ctx))
          (emit (contextClose inputContext) ;;
           assign (set_inputAudioContext (Some (AudioContext_close ctx))))
    | None => skip
    end) ;;
  reading outputAudioContext (fun v =>
    match v with
    | Some ctx =>
        when (negb (isClosed ctx))
          (emit (contextClose outputContext) ;;
           assign (set_outputAudioContext (Some (AudioContext_close ctx))))
    | None => skip
    end) ;;
  reading outputSources (fun l => emitAll (map outputStop l)) ;;
  assign (set_outputSources []) ;;
  assign (set_sessionPromise None).

(** ** [handleSessionOpen] *)

(** The answer of [navigator.mediaDevices.getUserMedia]: the stream, with
    the two nodes the input context creates for it, or a rejection. *)
Inductive MediaResult :=
| granted (stream sourceNode processorNode : Handle)
| denied.

Definition microphoneDenied : string :=
  "Microphone access denied. Please enable it in your browser settings.".

(** Up to the [await]. *)
Definition handleSessionOpen_begin : Cmd :=
  emit (onStatusUpdate LISTENING None) ;;
  emit (audioCue playStart) ;;
  emit getUserMedia.

(** From the [await] on. *)
Definition handleSessionOpen_resume (r : MediaResult) : Cmd :=
  match r with
  | granted stream sourceNode processorNode =>
      assign (set_mediaStream (Some stream)) ;;
      reading inputAudioContext (fun v =>
        match v with
        | None => skip
        | Some _ =>
            assign (set_source (Some sourceNode)) ;;
            assign (set_scriptProcessor (Some processorNode)) ;;
            emit (captureConnect sourceNode processorNode)
        end)
  | denied =>
      emit (onStatusUpdate ERROR (Some microphoneDenied)) ;;
      stopSession
  end.

Definition handleSessionOpen (r : MediaResult) : Cmd :=
  handleSessionOpen_begin ;; handleSessionOpen_resume r.

(** ** [playStreamedAudio] *)

(** What the audio environment answers while one chunk is played: the clock
    of the output context, the decoded buffer, the new buffer source. *)
Record PlaybackEnv := {
  currentTime : Q;
  audioBuffer : AudioBuffer;
  bufferSource : SourceId
}.

Definition playStreamedAudio (base64Audio : string) (env : PlaybackEnv) : Cmd :=
  reading outputAudioContext (fun v =>
    match v with
    | None => skip
    | Some _ =>
        assign (fun s => set_nextStartTime (Qmax (nextStartTime s) (currentTime env)) s) ;;
        reading nextStartTime (fun t => emit (outputStart (bufferSource env) t)) ;;
        assign (fun s => set_nextStartTime (nextStartTime s + duration (audioBuffer env))%Q s) ;;
        assign (fun s => set_outputSources (Js.setAdd (bufferSource env) (outputSources s)) s)
    end).

(** The ['ended'] listener of a scheduled source. *)
Definition sourceEnded (src : SourceId) : Cmd :=
  assign (fun s => set_outputSources (Js.setDelete src (outputSources s)) s).

(** ** [handleSessionMessage] *)

(** [message.serverContent?.f] *)
Definition field {A : Type} (f : Wire.ServerContent -> option A)
  (message : Wire.LiveServerMessage) : option A :=
  match Wire.serverContent message with
  | Some sc => f sc
  | None => None
  end.

Definition flag (f : Wire.ServerContent -> bool)
  (message : Wire.LiveServerMessage) : bool :=
  match Wire.serverContent message with
  | Some sc => f sc
  | None => false
  end.

Definition refTitle (r : option Wire.Ref) : option string :=
  match r with Some x => Wire.title x | None => None end.

Definition refUri (r : option Wire.Ref) : option string :=
  match r with Some x => Wire.uri x | None => None end.

(** The body of the [map] over the grounding chunks. *)
Definition toGroundingSource (chunk : Wire.GroundingChunk) : GroundingSource :=
  {| title := Js.or (refTitle (Wire.web chunk)) (Js.or (refTitle (Wire.maps chunk)) "Source");
     uri := Js.or (refUri (Wire.web chunk)) (Js.or (refUri (Wire.maps chunk)) "#") |}.

Definition resolved (src : GroundingSource) : bool :=
  negb (String.eqb (uri src) "#").

Definition groundingOf (chunks : list Wire.GroundingChunk) : list GroundingSource :=
  filter resolved (map toGroundingSource chunks).

(** Lines 203-215. *)
Definition onInterrupted (message : Wire.LiveServerMessage) : Cmd :=
  when (flag Wire.interrupted message)
    (reading outputSources (fun l => emitAll (map outputStop l)) ;;
     assign (set_outputSources []) ;;
     assign (set_nextStartTime 0%Q) ;;
     reading currentOutputTranscription (fun out =>
       when (Js.truthy out)
         (reading currentGrounding (fun g =>
            emit (onTranscriptUpdate
                    {| author := bot; text := out; isFinal := true; grounding := Some g |})) ;;
          assign (set_currentOutputTranscription "") ;;
          assign (set_currentGrounding [])))).

(** Lines 217-222. *)
Definition onInputTranscription (message : Wire.LiveServerMessage) : Cmd :=
  match field Wire.inputTranscription message with
  | None => skip
  | Some tr =>
      emit (onStatusUpdate PROCESSING None) ;;
      assign (set_currentInputTranscription (Js.ofOption (Wire.text tr))) ;;
      reading currentInputTranscription (fun t =>
        emit (onTranscriptUpdate
                {| author := user; text := t; isFinal := false; grounding := None |}))
  end.

(** Lines 224-238. *)
Definition onOutputTranscription (message : Wire.LiveServerMessage) : Cmd :=
  match field Wire.outputTranscription message with
  | None => skip
  | Some tr =>
      emit (onStatusUpdate SPEAKING None) ;;
      assign (fun s =>
        set_currentOutputTranscription
          (currentOutputTranscription s ++ Js.toString (Js.ofOption (Wire.text tr)))%string
          s) ;;
      match field Wire.groundingMetadata message with
      | Some {| Wire.groundingChunks := Some groundingChunks |} =>
          assign (set_currentGrounding (groundingOf groundingChunks))
      | _ => skip
      end ;;
      reading currentOutputTranscription (fun t =>
        reading currentGrounding (fun g =>
          emit (onTranscriptUpdate
                  {| author := bot; text := t; isFinal := false; grounding := Some g |})))
  end.

(** Lines 245-256. *)
Definition onTurnComplete (message : Wire.LiveServerMessage) : Cmd :=
  when (flag Wire.turnComplete message)
    (emit (onStatusUpdate LISTENING None) ;;
     reading currentInputTranscription (fun t =>
       when (Js.truthy t)
         (emit (onTranscriptUpdate
                  {| author := user; text := t; isFinal := true; grounding := None |}) ;;
          assign (set_currentInputTranscription ""))) ;;
     reading currentOutputTranscription (fun t =>
       when (Js.truthy t)
         (reading currentGrounding (fun g =>
            emit (onTranscriptUpdate
                    {| author := bot; text := t; isFinal := true; grounding := Some g |})) ;;
          assign (set_currentOutputTranscription "") ;;
          assign (set_currentGrounding [])))).

(** The value of an expression, or the [TypeError] of reading a property of
    [undefined]. *)
Inductive Completion (A : Type) :=
| normal (a : A)
| throw.
Arguments normal {A} a.
Arguments throw {A}.

(** [message.serverContent?.modelTurn?.parts[0]?.inlineData.data] *)
Definition audioDataOf (message : Wire.LiveServerMessage) : Completion (option string) :=
  match field Wire.modelTurn message with
  | None => normal None
  | Some content =>
      match Wire.parts content with
      | None => throw
      | Some [] => normal None
      | Some (part :: _) =>
          match Wire.inlineData part with
          | None => throw
          | Some blob => normal (Wire.data blob)
          end
      end
  end.

(** Lines 240-256.  When reading [audioData] throws, the promise of the
    handler is rejected and the turn-complete block is not reached. *)
Definition onAudioAndTurnComplete (message : Wire.LiveServerMessage)
  (env : PlaybackEnv) : Cmd :=
  match audioDataOf message with
  | throw => emit unhandledRejection
  | normal audioData =>
      match audioData with
      | Some base64Audio =>
          when (Js.truthy base64Audio) (playStreamedAudio base64Audio env)
      | None => skip
      end ;;
      onTurnComplete message
  end.

Definition handleSessionMessage (message : Wire.LiveServerMessage)
  (env : PlaybackEnv) : Cmd :=
  onInterrupted message ;;
  onInputTranscription message ;;
  onOutputTranscription message ;;
  onAudioAndTurnComplete message env.

(** Inbound messages handled in arrival order. *)
Fixpoint handleSessionMessages
  (messages : list (Wire.LiveServerMessage * PlaybackEnv)) : Cmd :=
  match messages with
  | [] => skip
  | (message, env) :: rest =>
      handleSessionMessage message env ;; handleSessionMessages rest
  end.

(** ** [handleSessionError] *)

Definition unexpectedError : string :=
  "An unexpected error occurred with the AI service.".
Definition invalidApiKey : string :=
  "The API key is invalid. Please check your configuration.".
Definition networkError : string :=
  "A network error occurred. Please check your internet connection.".
Definition permissionIssue : string :=
  "Could not connect to the AI service due to a permission issue.".
Definition quotaExceeded : string :=
  "You have exceeded your API quota. Please check your account.".

(** The value of [userMessage] when the status update is made. *)
Definition userMessage (e : ErrorEvent) : string :=
  if Js.truthy (message e) then
    let message := Js.toLowerCase (message e) in
    if Js.includes message "api key not valid" then invalidApiKey
    else if Js.includes message "network" || Js.includes message "failed to fetch"
    then networkError
    else if Js.includes message "permission denied" then permissionIssue
    else if Js.includes message "quota" then quotaExceeded
    else unexpectedError
  else unexpectedError.

Definition handleSessionError (e : ErrorEvent) : Cmd :=
  emit (audioCue playError) ;;
  emit (onStatusUpdate ERROR (Some (userMessage e))) ;;
  stopSession.

(** ** The connect promise and the capture callback *)

(** The promise returned by [ai.live.connect].  While it is pending it holds
    the reactions registered with [then], in registration order; the service
    registers one per captured frame, closing over the frame's blob. *)
Inductive PromiseState :=
| pending (reactions : list Blob)
| fulfilled (session : Handle)
| rejected.

(** The service together with the promise object its [sessionPromise] field
    refers to while the field is not [null]. *)
Record World := {
  service : GeminiService;
  connectPromise : PromiseState
}.

Definition lift (c : Cmd) (w : World) : World * list Event :=
  let (s, t) := c (service w) in
  ({| service := s; connectPromise := connectPromise w |}, t).

(** [_startLiveSession], up to [await this.sessionPromise]. *)
Definition startLiveSession_connect (promise : Handle) (w : World) : World * list Event :=
  let s := service w in
  let s1 := set_inputAudioContext (Some {| state := running |}) s in
  let s2 := match outputAudioContext s1 with
            | None => set_outputAudioContext (Some {| state := running |}) s1
            | Some _ => s1
            end in
  ({| service := set_sessionPromise (Some promise) s2; connectPromise := pending [] |}, []).

(** [scriptProcessor.onaudioprocess], with [pcmBlob] the blob made of the
    frame. *)
Definition onaudioprocess (pcmBlob : Blob) (w : World) : World * list Event :=
  match sessionPromise (service w) with
  | None => (w, [])
  | Some _ =>
      match connectPromise w with
      | pending reactions =>
          ({| service := service w; connectPromise := pending (reactions ++ [pcmBlob]) |}, [])
      | fulfilled session => (w, [sendRealtimeInput session pcmBlob])
      | rejected => (w, [])
      end
  end.

(** The promise is fulfilled: the [await] of [_startLiveSession] resumes with
    [this.session = session], then the registered reactions run in order. *)
Definition connectFulfilled (h : Handle) (w : World) : World * list Event :=
  match connectPromise w with
  | pending reactions =>
      ({| service := set_session (Some h) (service w); connectPromise := fulfilled h |},
       map (sendRealtimeInput h) reactions)
  | _ => (w, [])
  end.

(** The promise is rejected: the [catch] of [_startLiveSession] runs; the
    reactions registered with [then] alone are not run. *)
Definition connectRejected (e : ErrorEvent) (w : World) : World * list Event :=
  match connectPromise w with
  | pending _ =>
      lift (handleSessionError e)
        {| service := service w; connectPromise := rejected |}
  | _ => (w, [])
  end.

(** Frames captured one after the other. *)
Fixpoint captureFrames (blobs : list Blob) (w : World) : World * list Event :=
  match blobs with
  | [] => (w, [])
  | b :: rest =>
      let (w1, t1) := onaudioprocess b w in
      let (w2, t2) := captureFrames rest w1 in
      (w2, t1 ++ t2)
  end.

(** ** Observations on the effects of a call *)

(** The statuses reported through [onStatusUpdate], in order. *)
Fixpoint statusUpdates (t : list Event) : list (AppStatus * option string) :=
  match t with
  | [] => []
  | onStatusUpdate st m :: t' => (st, m) :: statusUpdates t'
  | _ :: t' => statusUpdates t'
  end.

(** The turns passed to [onTranscriptUpdate], in order. *)
Fixpoint transcriptUpdates (t : list Event) : list TranscriptTurn :=
  match t with
  | [] => []
  | onTranscriptUpdate turn :: t' => turn :: transcriptUpdates t'
  | _ :: t' => transcriptUpdates t'
  end.

(** The effects that release a resource the service owns. *)
Definition isRelease (e : Event) : bool :=
  match e with
  | sessionClose _ | tracksStop _ | sourceDisconnect _ | processorDisconnect _
  | contextClose _ | outputStop _ => true
  | _ => false
  end.

(** The releases [stopSession] performs, read off the fields before the call. *)
Definition releasesOf (s : GeminiService) : list Event :=
  match session s with Some h => [sessionClose h] | None => [] end ++
  match mediaStream s with Some h => [tracksStop h] | None => [] end ++
  match source s with Some h => [sourceDisconnect h] | None => [] end ++
  match scriptProcessor s with Some h => [processorDisconnect h] | None => [] end ++
  match inputAudioContext s with
  | Some ctx => if isClosed ctx then [] else [contextClose inputContext]
  | None => []
  end ++
  match outputAudioContext s with
  | Some ctx => if isClosed ctx then [] else [contextClose outputContext]
  | None => []
  end ++
  map outputStop (outputSources s).

(** ** Reference notions the properties are stated with *)

(** [p] occurs in [s]. *)
Definition occursIn (p s : string) : Prop :=
  exists a b : string, s = (a ++ p ++ b)%string.

(** A service as it stands in the middle of a conversation, for examples. *)
Definition conversingService : GeminiService := {|
  session := Some 1;
  sessionPromise := Some 2;
  inputAudioContext := Some {| state := running |};
  outputAudioContext := Some {| state := running |};
  mediaStream := Some 3;
  scriptProcessor := Some 4;
  source := Some 5;
  outputSources := [7; 8];
  nextStartTime := 3%Q;
  currentInputTranscription := "hello";
  currentOutputTranscription := "Hi the";
  currentGrounding := [{| title := "Source"; uri := "https://example.org" |}]
|}.

(** The grounding buffer after the output-transcription block. *)
Definition groundingAfter (m : Wire.LiveServerMessage) (s : GeminiService) :
  list GroundingSource :=
  match field Wire.groundingMetadata m with
  | Some {| Wire.groundingChunks := Some chunks |} => groundingOf chunks
  | _ => currentGrounding s
  end.

(** A message that carries partial transcriptions (and possibly audio and
    grounding) but neither an interruption nor a turn-complete signal. *)
Definition partialOnly (m : Wire.LiveServerMessage) : Prop :=
  flag Wire.interrupted m = false /\ flag Wire.turnComplete m = false.

(** What the bot transcription of a message, if any, contributes when it is
    appended to the accumulator. *)
Definition botDelta (m : Wire.LiveServerMessage) : string :=
  match field Wire.outputTranscription m with
  | Some tr => Js.toString (Js.ofOption (Wire.text tr))
  | None => ""
  end.

(** The concatenation of the bot deltas of a sequence of messages. *)
Fixpoint botDeltas (messages : list (Wire.LiveServerMessage * PlaybackEnv)) : string :=
  match messages with
  | [] => ""
  | (m, _) :: rest => (botDelta m ++ botDeltas rest)%string
  end.

(** What a caller sees of a turn besides its grounding. *)
Definition summary (turn : TranscriptTurn) : Author * Text * bool :=
  (author turn, text turn, isFinal turn).

Definition sameAuthor (a b : Author) : bool :=
  match a, b with
  | user, user | bot, bot => true
  | _, _ => false
  end.

(** The final turns of one author among the effects of a call. *)
Definition finalTurns (a : Author) (t : list Event) : list TranscriptTurn :=
  filter (fun turn => isFinal turn && sameAuthor (author turn) a) (transcriptUpdates t).

(** Example messages. *)
Definition userPartial (t : string) : Wire.LiveServerMessage :=
  {| Wire.serverContent := Some {|
       Wire.interrupted := false;
       Wire.inputTranscription := Some {| Wire.text := Some t |};
       Wire.outputTranscription := None;
       Wire.groundingMetadata := None;
       Wire.modelTurn := None;
       Wire.turnComplete := false |} |}.

Definition botPartial (t : string) : Wire.LiveServerMessage :=
  {| Wire.serverContent := Some {|
       Wire.interrupted := false;
       Wire.inputTranscription := None;
       Wire.outputTranscription := Some {| Wire.text := Some t |};
       Wire.groundingMetadata := None;
       Wire.modelTurn := None;
       Wire.turnComplete := false |} |}.

Definition bothPartials (u b : string) : Wire.LiveServerMessage :=
  {| Wire.serverContent := Some {|
       Wire.interrupted := false;
       Wire.inputTranscription := Some {| Wire.text := Some u |};
       Wire.outputTranscription := Some {| Wire.text := Some b |};
       Wire.groundingMetadata := None;
       Wire.modelTurn := None;
       Wire.turnComplete := false |} |}.

Definition audioChunk (base64Audio : string) : Wire.Content :=
  {| Wire.parts := Some [{| Wire.inlineData := Some {| Wire.data := Some base64Audio |} |}] |}.

Definition turnCompleteMessage : Wire.LiveServerMessage :=
  {| Wire.serverContent := Some {|
       Wire.interrupted := false;
       Wire.inputTranscription := None;
       Wire.outputTranscription := None;
       Wire.groundingMetadata := None;
       Wire.modelTurn := None;
       Wire.turnComplete := true |} |}.

Definition interruptedWithAudio (base64Audio : string) : Wire.LiveServerMessage :=
  {| Wire.serverContent := Some {|
       Wire.interrupted := true;
       Wire.inputTranscription := None;
       Wire.outputTranscription := None;
       Wire.groundingMetadata := None;
       Wire.modelTurn := Some (audioChunk base64Audio);
       Wire.turnComplete := false |} |}.

(** An audio environment: the clock reads [now], the chunk decodes to a
    buffer of [d] seconds, the new source is number [src]. *)
Definition playbackAt (now d : Q) (src : SourceId) : PlaybackEnv :=
  {| currentTime := now; audioBuffer := {| duration := d |}; bufferSource := src |}.

Definition examplePartials : list (Wire.LiveServerMessage * PlaybackEnv) :=
  [ (botPartial "Hi", playbackAt 0 0 0);
    (userPartial "wha", playbackAt 0 0 0);
    (botPartial " the", playbackAt 0 0 0) ].






(** The sources started by a call, with their start times, in order. *)
Fixpoint outputStarts (t : list Event) : list (SourceId * Q) :=
  match t with
  | [] => []
  | outputStart src start :: t' => (src, start) :: outputStarts t'
  | _ :: t' => outputStarts t'
  end.

(** The sources stopped by a call, in order. *)
Fixpoint outputStops (t : list Event) : list SourceId :=
  match t with
  | [] => []
  | outputStop src :: t' => src :: outputStops t'
  | _ :: t' => outputStops t'
  end.

(** The message carries a non-empty inline audio payload. *)
Definition playsAudio (m : Wire.LiveServerMessage) : bool :=
  match audioDataOf m with
  | normal (Some b) => Js.truthy b
  | _ => false
  end.

Definition hasOutputContext (s : GeminiService) : bool :=
  match outputAudioContext s with
  | Some _ => true
  | None => false
  end.

Definition interruptedMessage : Wire.LiveServerMessage :=
  {| Wire.serverContent := Some {|
       Wire.interrupted := true;
       Wire.inputTranscription := None;
       Wire.outputTranscription := None;
       Wire.groundingMetadata := None;
       Wire.modelTurn := None;
       Wire.turnComplete := false |} |}.

Definition audioMessage (base64Audio : string) : Wire.LiveServerMessage :=
  {| Wire.serverContent := Some {|
       Wire.interrupted := false;
       Wire.inputTranscription := None;
       Wire.outputTranscription := None;
       Wire.groundingMetadata := None;
       Wire.modelTurn := Some (audioChunk base64Audio);
       Wire.turnComplete := false |} |}.

(** A message that leaves the watermark where it is or moves it forward: no
    interruption signal, and a decoded buffer of non-negative duration. *)
Definition advancing (me : Wire.LiveServerMessage * PlaybackEnv) : Prop :=
  flag Wire.interrupted (fst me) = false /\
  (0 <= duration (audioBuffer (snd me)))%Q.

(** A service just constructed.  No connection was asked for yet: the
    [sessionPromise] field is [null] and the promise recorded here is not
    read before [_startLiveSession] replaces it. *)
Definition initialWorld : World :=
  {| service := initialService; connectPromise := pending [] |}.

(** The service right after [_startLiveSession] has created its audio
    contexts and asked for the connection. *)
Definition connectingWorld : World :=
  fst (startLiveSession_connect 2 initialWorld).

Definition connectingService : GeminiService := service connectingWorld.

Definition examplePlayback : list (Wire.LiveServerMessage * PlaybackEnv) :=
  [ (audioMessage "AAAA", playbackAt 5 2 9);
    (botPartial "Hi", playbackAt 6 0 0);
    (audioMessage "BBBB", playbackAt 6 3 10) ].

(** The blobs handed to the transport by a call, in order. *)
Fixpoint sentBlobs (t : list Event) : list Blob :=
  match t with
  | [] => []
  | sendRealtimeInput _ media :: t' => media :: sentBlobs t'
  | _ :: t' => sentBlobs t'
  end.

(** ** App.tsx: the transcript shown to the user *)

(** [l.findLastIndex(p)], with [None] for [-1]. *)
Fixpoint findLastIndex {A : Type} (p : A -> bool) (l : list A) : option nat :=
  match l with
  | [] => None
  | x :: l' =>
      match findLastIndex p l' with
      | Some i => Some (S i)
      | None => if p x then Some 0 else None
      end
  end.

(** [copy[i] = x] on a copy of the array; the index the reducer uses comes
    from [findLastIndex] and lies within the array. *)
Fixpoint replaceAt {A : Type} (i : nat) (x : A) (l : list A) : list A :=
  match l, i with
  | [], _ => []
  | _ :: l', 0 => x :: l'
  | y :: l', S i' => y :: replaceAt i' x l'
  end.

(** The updater [handleTranscriptUpdate] passes to [setTranscript]. *)
Definition handleTranscriptUpdate (newTurn : TranscriptTurn)
  (prev : list TranscriptTurn) : list TranscriptTurn :=
  match findLastIndex
          (fun turn => sameAuthor (author turn) (author newTurn) && negb (isFinal turn))
          prev with
  | Some lastTurnIndex => replaceAt lastTurnIndex newTurn prev
  | None => prev ++ [newTurn]
  end.

(** The updaters of successive calls applied in order. *)
Fixpoint handleTranscriptUpdates (turns : list TranscriptTurn)
  (prev : list TranscriptTurn) : list TranscriptTurn :=
  match turns with
  | [] => prev
  | turn :: rest => handleTranscriptUpdates rest (handleTranscriptUpdate turn prev)
  end.

(** A turn of author [a] still in progress. *)
Definition isDraftOf (a : Author) (turn : TranscriptTurn) : bool :=
  sameAuthor (author turn) a && negb (isFinal turn).

(** No author has two turns in progress. *)
Definition atMostOneDraft (l : list TranscriptTurn) : Prop :=
  forall a : Author, length (filter (isDraftOf a) l) <= 1.

Definition exampleTurns : list TranscriptTurn :=
  [ {| author := user; text := "wha"; isFinal := false; grounding := None |};
    {| author := bot; text := "Hi"; isFinal := false; grounding := Some [] |};
    {| author := user; text := "what"; isFinal := false; grounding := None |};
    {| author := user; text := "what"; isFinal := true; grounding := None |};
    {| author := bot; text := "Hi there"; isFinal := false; grounding := Some [] |};
    {| author := user; text := "and"; isFinal := false; grounding := None |} ].

(** Every turn in progress shows the accumulator the service holds for its
    author (and, for the bot, the grounding buffer). *)
Definition mirrors (s : GeminiService) (l : list TranscriptTurn) : Prop :=
  forall d : TranscriptTurn, In d l -> isFinal d = false ->
    match author d with
    | user => text d = currentInputTranscription s /\ grounding d = None
    | bot => text d = currentOutputTranscription s /\
             grounding d = Some (currentGrounding s)
    end.

(** The transcript the App shows once the turns reported by a call of the
    service went through its reducer. *)
Definition shownAfter (r : GeminiService * list Event)
  (prev : list TranscriptTurn) : list TranscriptTurn :=
  handleTranscriptUpdates (transcriptUpdates (trace r)) prev.

(** The command keeps the shown transcript in step with the accumulators. *)
Definition keepsInStep (c : Cmd) : Prop :=
  forall (s : GeminiService) (prev : list TranscriptTurn),
    atMostOneDraft prev -> mirrors s prev ->
    atMostOneDraft (shownAfter (c s) prev) /\
    mirrors (finalState (c s)) (shownAfter (c s) prev).

Definition exampleConversation : list (Wire.LiveServerMessage * PlaybackEnv) :=
  [ (userPartial "wha", playbackAt 0 0 0);
    (userPartial "what", playbackAt 0 0 0);
    (botPartial "Hi", playbackAt 0 0 0);
    (audioMessage "AAAA", playbackAt 1 2 7);
    (botPartial " there", playbackAt 0 0 0);
    (turnCompleteMessage, playbackAt 0 0 0);
    (userPartial "and", playbackAt 0 0 0) ].

(** ** App.tsx: the status shown to the user *)

Inductive Gender := male | female.

(** The state of the [App] component: its four state variables, and the ref
    that holds the status as of the last render. *)
Record App := {
  status : AppStatus;
  errorMessage : option string;
  transcript : list TranscriptTurn;
  selectedGender : option Gender;
  statusRef : AppStatus
}.

(** The cue the App plays itself. *)
Inductive AppCue := playProcessing.

Definition isProcessing (st : AppStatus) : bool :=
  match st with
  | PROCESSING => true
  | _ => false
  end.

Definition defaultErrorMessage : string := "An error occurred. Please try again.".

(** [handleStatusUpdate], lines 84-99. *)
Definition handleStatusUpdate (newStatus : AppStatus) (message : option string)
  (a : App) : App * list AppCue :=
  let cues :=
    if isProcessing (statusRef a) && negb (isProcessing newStatus) then []
    else if negb (isProcessing (statusRef a)) && isProcessing newStatus
         then [playProcessing]
         else [] in
  (match newStatus with
   | ERROR =>
       {| status := newStatus;
          errorMessage := Some (Js.or message defaultErrorMessage);
          transcript := [];
          selectedGender := None;
          statusRef := statusRef a |}
   | _ =>
       {| status := newStatus;
          errorMessage := None;
          transcript := transcript a;
          selectedGender := selectedGender a;
          statusRef := statusRef a |}
   end, cues).

(** A render of the component: [statusRef.current = status]. *)
Definition render (a : App) : App :=
  {| status := status a;
     errorMessage := errorMessage a;
     transcript := transcript a;
     selectedGender := selectedGender a;
     statusRef := status a |}.

(** [handleTranscriptUpdate] as it acts on the component. *)
Definition App_handleTranscriptUpdate (newTurn : TranscriptTurn) (a : App) : App :=
  {| status := status a;
     errorMessage := errorMessage a;
     transcript := handleTranscriptUpdate newTurn (transcript a);
     selectedGender := selectedGender a;
     statusRef := statusRef a |}.

(** Status updates that arrive one by one, the component rendering after
    each. *)
Fixpoint statusUpdatesRendered (updates : list (AppStatus * option string))
  (a : App) : App * list AppCue :=
  match updates with
  | [] => (a, [])
  | (st, m) :: rest =>
      let (a1, c1) := handleStatusUpdate st m a in
      let (a2, c2) := statusUpdatesRendered rest (render a1) in
      (a2, c1 ++ c2)
  end.

(** The effects of one call of the service as the two callbacks of the App
    receive them, before the component renders again. *)
Fixpoint deliver (t : list Event) (a : App) : App * list AppCue :=
  match t with
  | [] => (a, [])
  | onStatusUpdate st m :: t' =>
      let (a1, c1) := handleStatusUpdate st m a in
      let (a2, c2) := deliver t' a1 in
      (a2, c1 ++ c2)
  | onTranscriptUpdate turn :: t' => deliver t' (App_handleTranscriptUpdate turn a)
  | _ :: t' => deliver t' a
  end.

(** The number of updates that take the status into [PROCESSING] from
    another status, [prev] being the status before the first update. *)
Fixpoint crossingsIntoProcessing (prev : AppStatus) (updates : list AppStatus) : nat :=
  match updates with
  | [] => 0
  | st :: rest =>
      (if negb (isProcessing prev) && isProcessing st then 1 else 0)
      + crossingsIntoProcessing st rest
  end.

(** The messages the service reports with [ERROR]. *)
Definition serviceErrorMessages : list string :=
  [microphoneDenied; unexpectedError; invalidApiKey; networkError;
   permissionIssue; quotaExceeded].

(** A status as the service reports it: one of the three conversation
    statuses without a message, or [ERROR] with one of its messages. *)
Definition reportedByService (u : AppStatus * option string) : Prop :=
  match fst u with
  | LISTENING | PROCESSING | SPEAKING => snd u = None
  | ERROR => exists m, snd u = Some m /\ In m serviceErrorMessages /\ Js.truthy m = true
  | IDLE | GREETING => False
  end.

(** ** What drives a service *)

(** The callbacks of the transport, the ['ended'] event of a source, and the
    call of [stopSession] by the owner. *)
Inductive ServiceInput :=
| opened (r : MediaResult)
| received (m : Wire.LiveServerMessage) (env : PlaybackEnv)
| failed (e : ErrorEvent)
| ended (src : SourceId)
| stopped.

Definition react (i : ServiceInput) : Cmd :=
  match i with
  | opened r => handleSessionOpen r
  | received m env => handleSessionMessage m env
  | failed e => handleSessionError e
  | ended src => sourceEnded src
  | stopped => stopSession
  end.

Fixpoint reactAll (inputs : list ServiceInput) : Cmd :=
  match inputs with
  | [] => skip
  | i :: rest => react i ;; reactAll rest
  end.

(** An App that has rendered in status [st]. *)
Definition appIn (st : AppStatus) (l : list TranscriptTurn) : App :=
  {| status := st; errorMessage := None; transcript := l;
     selectedGender := Some female; statusRef := st |}.

(** The statuses a message makes the service report, read off its fields. *)
Definition statusesOf (m : Wire.LiveServerMessage) : list (AppStatus * option string) :=
  match field Wire.inputTranscription m with
  | Some _ => [(PROCESSING, None)]
  | None => []
  end ++
  match field Wire.outputTranscription m with
  | Some _ => [(SPEAKING, None)]
  | None => []
  end ++
  match audioDataOf m with
  | normal _ => if flag Wire.turnComplete m then [(LISTENING, None)] else []
  | throw => []
  end.

Definition exampleRun : list ServiceInput :=
  [ opened (granted 3 4 5);
    received (userPartial "hello") (playbackAt 0 0 0);
    received (audioMessage "AAAA") (playbackAt 1 2 7);
    ended 7;
    received (audioMessage "BBBB") (playbackAt 4 2 8);
    received interruptedMessage (playbackAt 5 0 0);
    failed {| message := "Network connection lost" |} ].

(** Reading a trace from left to right with the sources started so far:
    every source that is stopped has been started (or was live at the
    beginning). *)
Fixpoint stopsOnlyStarted (started : list SourceId) (t : list Event) : Prop :=
  match t with
  | [] => True
  | outputStart src _ :: t' => stopsOnlyStarted (src :: started) t'
  | outputStop src :: t' => In src started /\ stopsOnlyStarted started t'
  | _ :: t' => stopsOnlyStarted started t'
  end.

(** The sources started once a trace has been performed. *)
Definition startedAfter (started : list SourceId) (t : list Event) : list SourceId :=
  rev (map fst (outputStarts t)) ++ started.

(** The command stops started sources only, and leaves only started sources
    in the live set. *)
Definition stopsStartedOnly (c : Cmd) : Prop :=
  forall (started : list SourceId) (s : GeminiService),
    incl (outputSources s) started ->
    stopsOnlyStarted started (trace (c s)) /\
    incl (outputSources (finalState (c s))) (startedAfter started (trace (c s))).

Definition exampleLater : list (Wire.LiveServerMessage * PlaybackEnv) :=
  [ (botPartial "Hi", playbackAt 2 0 0);
    (audioMessage "BBBB", playbackAt 2 3 10);
    (audioMessage "CCCC", playbackAt 20 1 11) ].

(** Nothing is left to release: the handles are [null], the live set is
    empty and the audio contexts that exist are closed. *)
Definition tornDown (s : GeminiService) : Prop :=
  session s = None /\ sessionPromise s = None /\ mediaStream s = None /\
  source s = None /\ scriptProcessor s = None /\ outputSources s = [] /\
  (forall ctx, inputAudioContext s = Some ctx -> isClosed ctx = true) /\
  (forall ctx, outputAudioContext s = Some ctx -> isClosed ctx = true).

(** The watermark, the accumulators and the grounding buffer are the same. *)
Definition sameConversationState (s s' : GeminiService) : Prop :=
  nextStartTime s' = nextStartTime s /\
  currentInputTranscription s' = currentInputTranscription s /\
  currentOutputTranscription s' = currentOutputTranscription s /\
  currentGrounding s' = currentGrounding s.

(** A world in which the connection was asked for and two frames were
    captured before the promise settled. *)
Definition capturingWorld : World :=
  finalState (captureFrames [41; 42] connectingWorld).

(** A bot transcription that carries no text. *)
Definition textlessBotPartial : Wire.LiveServerMessage :=
  {| Wire.serverContent := Some {|
       Wire.interrupted := false;
       Wire.inputTranscription := None;
       Wire.outputTranscription := Some {| Wire.text := None |};
       Wire.groundingMetadata := None;
       Wire.modelTurn := None;
       Wire.turnComplete := false |} |}.

(** A user transcription that carries no text. *)
Definition textlessUserPartial : Wire.LiveServerMessage :=
  {| Wire.serverContent := Some {|
       Wire.interrupted := false;
       Wire.inputTranscription := Some {| Wire.text := None |};
       Wire.outputTranscription := None;
       Wire.groundingMetadata := None;
       Wire.modelTurn := None;
       Wire.turnComplete := false |} |}.

(** A turn-complete message whose model turn starts with a part that has no
    inline data (a text part). *)
Definition turnCompleteWithTextPart : Wire.LiveServerMessage :=
  {| Wire.serverContent := Some {|
       Wire.interrupted := false;
       Wire.inputTranscription := None;
       Wire.outputTranscription := None;
       Wire.groundingMetadata := None;
       Wire.modelTurn := Some {| Wire.parts := Some [{| Wire.inlineData := None |}] |};
       Wire.turnComplete := true |} |}.

(** ** Properties of [stopSession] *)

(** Case analysis on what [stopSession] finds in the fields it releases. *)
Ltac resource_cases s :=
  let ic := fresh "ic" in
  let oc := fresh "oc" in
  destruct (session s), (mediaStream s), (source s), (scriptProcessor s),
    (inputAudioContext s) as [ic|], (outputAudioContext s) as [oc|];
  try destruct (isClosed ic); try destruct (isClosed oc); simpl.

Lemma statusUpdates_app (t1 t2 : list Event) :
  statusUpdates (t1 ++ t2) = statusUpdates t1 ++ statusUpdates t2.
Proof.
  induction t1 as [|e t1 IH]; simpl; [reflexivity|].
  destruct e; simpl; rewrite ?IH; reflexivity.
Qed.

Lemma transcriptUpdates_app (t1 t2 : list Event) :
  transcriptUpdates (t1 ++ t2) = transcriptUpdates t1 ++ transcriptUpdates t2.
Proof.
  induction t1 as [|e t1 IH]; simpl; [reflexivity|].
  destruct e; simpl; rewrite ?IH; reflexivity.
Qed.

Lemma statusUpdates_outputStop (l : list SourceId) :
  statusUpdates (map outputStop l) = [].
Proof. induction l; simpl; auto. Qed.

Lemma transcriptUpdates_outputStop (l : list SourceId) :
  transcriptUpdates (map outputStop l) = [].
Proof. induction l; simpl; auto. Qed.

Lemma filter_isRelease_outputStop (l : list SourceId) :
  filter isRelease (map outputStop l) = map outputStop l.
Proof. induction l; simpl; congruence. Qed.

(** The effects of one call are the stop cue followed by the releases. *)
Lemma stopSession_trace (s : GeminiService) :
  trace (stopSession s) = audioCue playStop :: releasesOf s.
Proof.
  destruct s as [se sp ic oc ms pr so os nst cin cout cg].
  destruct se, ms, so, pr, ic as [[[]]|], oc as [[[]]|];
    cbv -[map app]; simpl; rewrite ?app_nil_r; reflexivity.
Qed.

(** After a call nothing is left to release. *)
Lemma stopSession_releasesOf (s : GeminiService) :
  releasesOf (finalState (stopSession s)) = [].
Proof.
  destruct s as [se sp ic oc ms pr so os nst cin cout cg].
  destruct se, ms, so, pr, ic as [[[]]|], oc as [[[]]|]; reflexivity.
Qed.

Lemma stopSession_fixpoint (s : GeminiService) :
  finalState (stopSession (finalState (stopSession s))) = finalState (stopSession s).
Proof.
  destruct s as [se sp ic oc ms pr so os nst cin cout cg].
  destruct se, ms, so, pr, ic as [[[]]|], oc as [[[]]|]; reflexivity.
Qed.

Lemma outputStop_NoDup (l : list SourceId) :
  NoDup l -> NoDup (map outputStop l).
Proof.
  induction 1 as [|x l Hx Hl IH]; simpl; constructor; auto.
  rewrite in_map_iff. intros (y & Hy & Hin). inversion Hy; subst; auto.
Qed.

Lemma releasesOf_NoDup (s : GeminiService) :
  NoDup (outputSources s) -> NoDup (releasesOf s).
Proof.
  intros H. apply outputStop_NoDup in H.
  assert (Hstop : forall e, (forall x, e <> outputStop x) ->
                   ~ In e (map outputStop (outputSources s))).
  { intros e He Hin. apply in_map_iff in Hin. destruct Hin as (x & Hx & _).
    exact (He x (eq_sym Hx)). }
  unfold releasesOf.
  resource_cases s;
    repeat (constructor;
            [ simpl; intros Hin;
              repeat (destruct Hin as [Hin|Hin]; [discriminate Hin|]);
              revert Hin; apply Hstop; intros x; discriminate | ]);
    exact H.
Qed.

Lemma releasesOf_isRelease (s : GeminiService) :
  filter isRelease (releasesOf s) = releasesOf s.
Proof.
  unfold releasesOf.
  resource_cases s;
    rewrite ?filter_isRelease_outputStop; reflexivity.
Qed.

Lemma andThen_trace (c1 c2 : Cmd) (s : GeminiService) :
  trace ((c1 ;; c2) s) = trace (c1 s) ++ trace (c2 (finalState (c1 s))).
Proof.
  unfold andThen, trace, finalState.
  destruct (c1 s) as [s1 t1]; simpl. destruct (c2 s1); reflexivity.
Qed.

Lemma andThen_finalState (c1 c2 : Cmd) (s : GeminiService) :
  finalState ((c1 ;; c2) s) = finalState (c2 (finalState (c1 s))).
Proof.
  unfold andThen, trace, finalState.
  destruct (c1 s) as [s1 t1]; simpl. destruct (c2 s1); reflexivity.
Qed.

Lemma statusUpdates_releasesOf (s : GeminiService) :
  statusUpdates (releasesOf s) = [].
Proof.
  unfold releasesOf.
  resource_cases s;
    apply statusUpdates_outputStop.
Qed.

(** C4.  Two calls of [stopSession] in succession, from any state of the
    fields: the second call changes no field and performs no effect but the
    stop cue, so it releases nothing and touches no released handle; over the
    two calls no release is performed twice. *)
Theorem stopSession_twice_releases_once (s : GeminiService) :
  NoDup (outputSources s) ->
  let first := stopSession s in
  let second := stopSession (finalState first) in
  finalState second = finalState first /\
  trace second = [audioCue playStop] /\
  filter isRelease (trace first ++ trace second) = releasesOf s /\
  NoDup (filter isRelease (trace first ++ trace second)).
Proof.
  intros Hset first second. subst first second.
  rewrite stopSession_fixpoint.
  rewrite (stopSession_trace (finalState (stopSession s))).
  rewrite stopSession_releasesOf, stopSession_trace.
  assert (Hrel : filter isRelease
                   ((audioCue playStop :: releasesOf s) ++ [audioCue playStop])
                 = releasesOf s).
  { simpl. rewrite filter_app. simpl. rewrite app_nil_r.
    apply releasesOf_isRelease. }
  repeat split; try assumption.
  rewrite Hrel. apply releasesOf_NoDup. assumption.
Qed.

Lemma stopSession_twice_releases_once_witness :
  NoDup (outputSources conversingService) /\
  finalState (stopSession (finalState (stopSession conversingService)))
    = finalState (stopSession conversingService) /\
  trace (stopSession (finalState (stopSession conversingService)))
    = [audioCue playStop] /\
  filter isRelease
    (trace (stopSession conversingService) ++
     trace (stopSession (finalState (stopSession conversingService))))
    = releasesOf conversingService /\
  NoDup (filter isRelease
    (trace (stopSession conversingService) ++
     trace (stopSession (finalState (stopSession conversingService))))).
Proof.
  assert (H : NoDup (outputSources conversingService)).
  { simpl. repeat constructor; simpl; intuition discriminate. }
  split; [exact H|].
  exact (stopSession_twice_releases_once conversingService H).
Defined.

Lemma handleSessionError_reports_error (e : ErrorEvent) (s : GeminiService) :
  statusUpdates (trace (handleSessionError e s)) = [(ERROR, Some (userMessage e))] /\
  finalState (handleSessionError e s) = finalState (stopSession s).
Proof.
  unfold handleSessionError. split.
  - rewrite !andThen_trace. simpl. rewrite stopSession_trace. simpl.
    rewrite statusUpdates_releasesOf. reflexivity.
  - rewrite !andThen_finalState. reflexivity.
Qed.

(** C10.  [stopSession] reports no status: the statuses reported so far are
    the same after the call, and the statuses [handleSessionError] reports,
    teardown included, are the one [ERROR] with the classified message. *)
Theorem stopSession_reports_no_status :
  (forall s, statusUpdates (trace (stopSession s)) = []) /\
  (forall reported s,
     statusUpdates (reported ++ trace (stopSession s)) = statusUpdates reported) /\
  (forall e s,
     statusUpdates (trace (handleSessionError e s)) = [(ERROR, Some (userMessage e))] /\
     finalState (handleSessionError e s) = finalState (stopSession s)).
Proof.
  assert (H : forall s, statusUpdates (trace (stopSession s)) = []).
  { intros s. rewrite stopSession_trace. simpl. apply statusUpdates_releasesOf. }
  split; [exact H|]. split.
  - intros reported s. rewrite statusUpdates_app, H. apply app_nil_r.
  - intros e s. apply handleSessionError_reports_error.
Qed.

(** ** Properties of the error classifier *)

Lemma startsWith_spec (s p : string) :
  Js.startsWith s p = true <-> exists b, s = (p ++ b)%string.
Proof.
  revert s. induction p as [|a p IH]; intros s; simpl.
  - split; [intros _; exists s; reflexivity | reflexivity].
  - destruct s as [|b s]; simpl.
    + split; [discriminate | intros (x & Hx); discriminate].
    + rewrite andb_true_iff, Ascii.eqb_eq, IH. split.
      * intros (-> & x & ->). exists x. reflexivity.
      * intros (x & Hx). inversion Hx; subst. split; [reflexivity | exists x; reflexivity].
Qed.

Lemma includes_spec (s p : string) :
  Js.includes s p = true <-> occursIn p s.
Proof.
  unfold occursIn. induction s as [|c s IH].
  - cbn [Js.includes]. rewrite orb_false_r, startsWith_spec. split.
    + intros (b & Hb). exists "", b. exact Hb.
    + intros (a & b & H). destruct a as [|x a]; [exists b; exact H | discriminate].
  - cbn [Js.includes]. rewrite orb_true_iff, startsWith_spec, IH. split.
    + intros [(b & Hb) | (a & b & Hab)].
      * exists "", b. exact Hb.
      * exists (String c a), b. simpl. rewrite Hab. reflexivity.
    + intros (a & b & H). destruct a as [|x a].
      * left. exists b. exact H.
      * right. simpl in H. inversion H; subst. exists a, b. reflexivity.
Qed.

Lemma includes_false (s p : string) :
  Js.includes s p = false <-> ~ occursIn p s.
Proof.
  rewrite <- includes_spec. destruct (Js.includes s p); split; intros H;
    try reflexivity; try discriminate; try (intros H'; discriminate).
  exfalso. apply H. reflexivity.
Qed.

Lemma toLowerCase_nonempty (s : string) :
  Js.truthy s = false -> Js.toLowerCase s = "".
Proof. destruct s; [reflexivity | discriminate]. Qed.

(** The cascade of [handleSessionError], read as a decision list over the
    lower-cased message. *)
Lemma userMessage_cascade (e : ErrorEvent) :
  let m := Js.toLowerCase (message e) in
  userMessage e =
    if Js.includes m "api key not valid" then invalidApiKey
    else if Js.includes m "network" || Js.includes m "failed to fetch" then networkError
    else if Js.includes m "permission denied" then permissionIssue
    else if Js.includes m "quota" then quotaExceeded
    else unexpectedError.
Proof.
  unfold userMessage. destruct (Js.truthy (message e)) eqn:Ht; [reflexivity|].
  rewrite (toLowerCase_nonempty _ Ht). reflexivity.
Qed.

(** C9, as the code has it.  The raw message is lower-cased and searched, in
    this order, for "api key not valid", then "network" or "failed to fetch",
    then "permission denied", then "quota"; the first phrase that occurs
    selects the user message and a message with none of them (the empty
    message included) gets the generic one.  The message chosen is reported
    once, with status [ERROR], and teardown follows. *)
Theorem handleSessionError_classification (e : ErrorEvent) (s : GeminiService) :
  let m := Js.toLowerCase (message e) in
  (statusUpdates (trace (handleSessionError e s)) = [(ERROR, Some (userMessage e))] /\
   finalState (handleSessionError e s) = finalState (stopSession s)) /\
  (occursIn "api key not valid" m -> userMessage e = invalidApiKey) /\
  (~ occursIn "api key not valid" m ->
   occursIn "network" m \/ occursIn "failed to fetch" m ->
   userMessage e = networkError) /\
  (~ occursIn "api key not valid" m ->
   ~ occursIn "network" m -> ~ occursIn "failed to fetch" m ->
   occursIn "permission denied" m -> userMessage e = permissionIssue) /\
  (~ occursIn "api key not valid" m ->
   ~ occursIn "network" m -> ~ occursIn "failed to fetch" m ->
   ~ occursIn "permission denied" m ->
   occursIn "quota" m -> userMessage e = quotaExceeded) /\
  (~ occursIn "api key not valid" m ->
   ~ occursIn "network" m -> ~ occursIn "failed to fetch" m ->
   ~ occursIn "permission denied" m -> ~ occursIn "quota" m ->
   userMessage e = unexpectedError).
Proof.
  intros m. split.
  { apply handleSessionError_reports_error. }
  rewrite userMessage_cascade. fold m.
  repeat split.
  - intros H. apply includes_spec in H. rewrite H. reflexivity.
  - intros Ha Hn. apply includes_false in Ha. rewrite Ha.
    destruct Hn as [Hn|Hn]; apply includes_spec in Hn; rewrite Hn;
      rewrite ?orb_true_r; reflexivity.
  - intros Ha Hn Hf Hp. apply includes_false in Ha, Hn, Hf.
    apply includes_spec in Hp. rewrite Ha, Hn, Hf, Hp. reflexivity.
  - intros Ha Hn Hf Hp Hq. apply includes_false in Ha, Hn, Hf, Hp.
    apply includes_spec in Hq. rewrite Ha, Hn, Hf, Hp, Hq. reflexivity.
  - intros Ha Hn Hf Hp Hq. apply includes_false in Ha, Hn, Hf, Hp, Hq.
    rewrite Ha, Hn, Hf, Hp, Hq. reflexivity.
Qed.

Lemma handleSessionError_classification_witness :
  userMessage {| message := "API key not valid. Please pass a valid API key." |}
    = invalidApiKey /\
  userMessage {| message := "TypeError: Failed to fetch" |} = networkError /\
  userMessage {| message := "Permission denied on resource project" |}
    = permissionIssue /\
  userMessage {| message := "Quota exceeded for requests per minute" |}
    = quotaExceeded /\
  userMessage {| message := "WebSocket closed abnormally" |} = unexpectedError.
Proof.
  split; [|split; [|split; [|split]]].
  - apply (handleSessionError_classification
             {| message := "API key not valid. Please pass a valid API key." |}
             initialService).
    exists "", ". please pass a valid api key.". reflexivity.
  - apply (handleSessionError_classification
             {| message := "TypeError: Failed to fetch" |} initialService).
    + apply includes_false. reflexivity.
    + right. exists "typeerror: ", "". reflexivity.
  - apply (handleSessionError_classification
             {| message := "Permission denied on resource project" |} initialService);
      try (apply includes_false; reflexivity).
    exists "", " on resource project". reflexivity.
  - apply (handleSessionError_classification
             {| message := "Quota exceeded for requests per minute" |} initialService);
      try (apply includes_false; reflexivity).
    exists "", " exceeded for requests per minute". reflexivity.
  - apply (handleSessionError_classification
             {| message := "WebSocket closed abnormally" |} initialService);
      apply includes_false; reflexivity.
Defined.

(** C9, as stated, fails: a message with "api key" but not "api key not
    valid", and one with "fetch" but not "failed to fetch", get the generic
    message; one with "permission denied" does not. *)
Lemma userMessage_counterexample :
  (occursIn "api key" (Js.toLowerCase (message {| message := "Missing API key" |})) /\
   userMessage {| message := "Missing API key" |} = unexpectedError /\
   unexpectedError <> invalidApiKey) /\
  (occursIn "fetch" (Js.toLowerCase (message {| message := "fetch aborted" |})) /\
   userMessage {| message := "fetch aborted" |} = unexpectedError /\
   unexpectedError <> networkError) /\
  (Js.includes (Js.toLowerCase "Permission denied") "api key" = false /\
   Js.includes (Js.toLowerCase "Permission denied") "network" = false /\
   Js.includes (Js.toLowerCase "Permission denied") "fetch" = false /\
   Js.includes (Js.toLowerCase "Permission denied") "quota" = false /\
   userMessage {| message := "Permission denied" |} = permissionIssue /\
   permissionIssue <> unexpectedError).
Proof.
  repeat split; try discriminate.
  - exists "missing ", "". reflexivity.
  - exists "", " aborted". reflexivity.
Qed.

(** ** The blocks of [handleSessionMessage], in closed form *)

Lemma onInputTranscription_eq (m : Wire.LiveServerMessage) (s : GeminiService) :
  onInputTranscription m s =
    match field Wire.inputTranscription m with
    | None => (s, [])
    | Some tr =>
        (set_currentInputTranscription (Js.ofOption (Wire.text tr)) s,
         [onStatusUpdate PROCESSING None;
          onTranscriptUpdate
            {| author := user; text := Js.ofOption (Wire.text tr); isFinal := false;
               grounding := None |}])
    end.
Proof.
  unfold onInputTranscription.
  destruct (field Wire.inputTranscription m); reflexivity.
Qed.

Lemma onOutputTranscription_eq (m : Wire.LiveServerMessage) (s : GeminiService) :
  onOutputTranscription m s =
    match field Wire.outputTranscription m with
    | None => (s, [])
    | Some tr =>
        let t := (currentOutputTranscription s
                  ++ Js.toString (Js.ofOption (Wire.text tr)))%string in
        let g := groundingAfter m s in
        (set_currentGrounding g (set_currentOutputTranscription t s),
         [onStatusUpdate SPEAKING None;
          onTranscriptUpdate
            {| author := bot; text := t; isFinal := false; grounding := Some g |}])
    end.
Proof.
  unfold onOutputTranscription, groundingAfter.
  destruct (field Wire.outputTranscription m); [|reflexivity].
  destruct s. destruct (field Wire.groundingMetadata m) as [[[chunks|]]|]; reflexivity.
Qed.

Lemma onInterrupted_eq (m : Wire.LiveServerMessage) (s : GeminiService) :
  onInterrupted m s =
    if flag Wire.interrupted m then
      let s0 := set_nextStartTime 0%Q (set_outputSources [] s) in
      if Js.truthy (currentOutputTranscription s) then
        (set_currentGrounding [] (set_currentOutputTranscription "" s0),
         map outputStop (outputSources s) ++
         [onTranscriptUpdate
            {| author := bot; text := currentOutputTranscription s; isFinal := true;
               grounding := Some (currentGrounding s) |}])
      else (s0, map outputStop (outputSources s))
    else (s, []).
Proof.
  unfold onInterrupted. destruct (flag Wire.interrupted m); [|reflexivity].
  destruct s as [se sp ic oc ms pr so os nst cin cout cg].
  cbv -[map app Js.truthy]. destruct (Js.truthy cout); simpl; rewrite ?app_nil_r; reflexivity.
Qed.

Lemma onTurnComplete_eq (m : Wire.LiveServerMessage) (s : GeminiService) :
  onTurnComplete m s =
    if flag Wire.turnComplete m then
      let s1 := if Js.truthy (currentInputTranscription s)
                then set_currentInputTranscription "" s else s in
      let s2 := if Js.truthy (currentOutputTranscription s)
                then set_currentGrounding [] (set_currentOutputTranscription "" s1)
                else s1 in
      (s2,
       onStatusUpdate LISTENING None ::
       (if Js.truthy (currentInputTranscription s)
        then [onTranscriptUpdate
                {| author := user; text := currentInputTranscription s; isFinal := true;
                   grounding := None |}]
        else []) ++
       (if Js.truthy (currentOutputTranscription s)
        then [onTranscriptUpdate
                {| author := bot; text := currentOutputTranscription s; isFinal := true;
                   grounding := Some (currentGrounding s) |}]
        else []))
    else (s, []).
Proof.
  unfold onTurnComplete. destruct (flag Wire.turnComplete m); [|reflexivity].
  destruct s as [se sp ic oc ms pr so os nst cin cout cg].
  cbv -[Js.truthy]. destruct (Js.truthy cin), (Js.truthy cout); reflexivity.
Qed.

Lemma playStreamedAudio_eq (b : string) (env : PlaybackEnv) (s : GeminiService) :
  playStreamedAudio b env s =
    match outputAudioContext s with
    | None => (s, [])
    | Some _ =>
        let start := Qmax (nextStartTime s) (currentTime env) in
        (set_outputSources (Js.setAdd (bufferSource env) (outputSources s))
           (set_nextStartTime (start + duration (audioBuffer env))%Q s),
         [outputStart (bufferSource env) start])
    end.
Proof.
  unfold playStreamedAudio, reading.
  destruct s as [se sp ic oc ms pr so os nst cin cout cg]; simpl.
  destruct oc; reflexivity.
Qed.

(** ** Partial transcriptions (C1) *)

Lemma append_assoc (a b c : string) :
  ((a ++ b) ++ c)%string = (a ++ (b ++ c))%string.
Proof. induction a as [|x a IH]; simpl; [reflexivity | rewrite IH; reflexivity]. Qed.

Lemma append_empty_r (a : string) : (a ++ "")%string = a.
Proof. induction a as [|x a IH]; simpl; [reflexivity | rewrite IH; reflexivity]. Qed.

(** Scheduling a chunk neither reports to the caller nor touches the
    accumulators. *)
Lemma playStreamedAudio_frame (b : string) (env : PlaybackEnv) (s : GeminiService) :
  let r := playStreamedAudio b env s in
  transcriptUpdates (trace r) = [] /\
  statusUpdates (trace r) = [] /\
  currentInputTranscription (finalState r) = currentInputTranscription s /\
  currentOutputTranscription (finalState r) = currentOutputTranscription s /\
  currentGrounding (finalState r) = currentGrounding s.
Proof.
  simpl. rewrite playStreamedAudio_eq.
  destruct (outputAudioContext s); simpl; repeat split; reflexivity.
Qed.

(** Without a turn-complete signal the tail of the handler reports no turn
    and leaves the accumulators alone. *)
Lemma onAudioAndTurnComplete_partial
  (m : Wire.LiveServerMessage) (env : PlaybackEnv) (s : GeminiService) :
  flag Wire.turnComplete m = false ->
  let r := onAudioAndTurnComplete m env s in
  transcriptUpdates (trace r) = [] /\
  currentInputTranscription (finalState r) = currentInputTranscription s /\
  currentOutputTranscription (finalState r) = currentOutputTranscription s /\
  currentGrounding (finalState r) = currentGrounding s.
Proof.
  intros Htc. simpl. unfold onAudioAndTurnComplete.
  destruct (audioDataOf m) as [[b|]|].
  - rewrite andThen_trace, andThen_finalState, !onTurnComplete_eq, Htc. simpl.
    rewrite app_nil_r. unfold when. destruct (Js.truthy b).
    + destruct (playStreamedAudio_frame b env s) as (H1 & _ & H2 & H3 & H4).
      repeat split; assumption.
    + repeat split; reflexivity.
  - rewrite andThen_trace, andThen_finalState, !onTurnComplete_eq, Htc.
    repeat split; reflexivity.
  - repeat split; reflexivity.
Qed.

(** The turns one partial-only message reports, and the bot accumulator
    after it. *)
Lemma handleSessionMessage_partial
  (m : Wire.LiveServerMessage) (env : PlaybackEnv) (s : GeminiService) :
  partialOnly m ->
  let r := handleSessionMessage m env s in
  currentOutputTranscription (finalState r)
    = (currentOutputTranscription s ++ botDelta m)%string /\
  map summary (transcriptUpdates (trace r)) =
    match field Wire.inputTranscription m with
    | Some tr => [(user, Js.ofOption (Wire.text tr), false)]
    | None => []
    end ++
    match field Wire.outputTranscription m with
    | Some tr =>
        [(bot,
          defined (currentOutputTranscription s
                   ++ Js.toString (Js.ofOption (Wire.text tr))),
          false)]
    | None => []
    end.
Proof.
  intros [Hi Htc]. simpl. unfold handleSessionMessage, botDelta.
  rewrite !andThen_trace, !andThen_finalState, !transcriptUpdates_app.
  rewrite !onInterrupted_eq, Hi. simpl finalState. simpl trace.
  rewrite !onInputTranscription_eq, !onOutputTranscription_eq.
  match goal with
  | |- context [onAudioAndTurnComplete m env ?s1] =>
      destruct (onAudioAndTurnComplete_partial m env s1 Htc) as (Ht & _ & Hout & _)
  end.
  rewrite Ht, Hout, app_nil_r.
  destruct (field Wire.inputTranscription m) as [ti|],
           (field Wire.outputTranscription m) as [to|]; simpl;
    rewrite ?append_empty_r; split; reflexivity.
Qed.

Lemma handleSessionMessages_app
  (pre post : list (Wire.LiveServerMessage * PlaybackEnv)) (s : GeminiService) :
  handleSessionMessages (pre ++ post) s =
    (handleSessionMessages pre ;; handleSessionMessages post) s.
Proof.
  revert s. induction pre as [|[m env] pre IH]; intros s; simpl.
  - unfold andThen, skip. destruct (handleSessionMessages post s); reflexivity.
  - unfold andThen in *. destruct (handleSessionMessage m env s) as [s1 t1].
    rewrite IH. destruct (handleSessionMessages pre s1) as [s2 t2].
    destruct (handleSessionMessages post s2) as [s3 t3].
    rewrite app_assoc. reflexivity.
Qed.

(** Over partial-only messages the bot accumulator grows by the deltas. *)
Lemma handleSessionMessages_partial
  (pre : list (Wire.LiveServerMessage * PlaybackEnv)) (s : GeminiService) :
  Forall (fun me => partialOnly (fst me)) pre ->
  currentOutputTranscription (finalState (handleSessionMessages pre s))
    = (currentOutputTranscription s ++ botDeltas pre)%string.
Proof.
  intros H. revert s. induction H as [|[m env] pre Hm Hpre IH]; intros s; simpl.
  - rewrite append_empty_r. reflexivity.
  - rewrite andThen_finalState, IH.
    destruct (handleSessionMessage_partial m env s Hm) as (-> & _).
    apply append_assoc.
Qed.

(** X13.  In a sequence of messages that carry neither an interruption nor
    a turn-complete signal, the turns reported for each message are
    non-final: a user turn that carries the text of the user transcription of
    that very message (no text when the transcription has none), and a bot
    turn whose text is the bot accumulator at the start of the sequence
    followed by what every bot transcription received so far contributes,
    this message's included: its text, or the string "undefined" when it has
    none. *)
Theorem partial_transcripts_append_and_replace
  (pre : list (Wire.LiveServerMessage * PlaybackEnv))
  (m : Wire.LiveServerMessage) (env : PlaybackEnv) (s : GeminiService) :
  Forall (fun me => partialOnly (fst me)) pre ->
  partialOnly m ->
  let before := finalState (handleSessionMessages pre s) in
  map summary (transcriptUpdates (trace (handleSessionMessage m env before))) =
    match field Wire.inputTranscription m with
    | Some tr => [(user, Js.ofOption (Wire.text tr), false)]
    | None => []
    end ++
    match field Wire.outputTranscription m with
    | Some tr =>
        [(bot,
          defined (currentOutputTranscription s ++ botDeltas pre
                   ++ Js.toString (Js.ofOption (Wire.text tr))),
          false)]
    | None => []
    end.
Proof.
  intros Hpre Hm before. subst before.
  destruct (handleSessionMessage_partial m env
              (finalState (handleSessionMessages pre s)) Hm) as (_ & ->).
  rewrite (handleSessionMessages_partial pre s Hpre).
  destruct (field Wire.outputTranscription m); [|reflexivity].
  rewrite append_assoc. reflexivity.
Qed.

Lemma partial_transcripts_append_and_replace_witness :
  Forall (fun me => partialOnly (fst me)) examplePartials /\
  partialOnly (bothPartials "what" "re") /\
  map summary
    (transcriptUpdates
       (trace (handleSessionMessage (bothPartials "what" "re") (playbackAt 0 0 0)
                 (finalState (handleSessionMessages examplePartials initialService)))))
  = [(user, defined "what", false); (bot, defined "Hi there", false)].
Proof.
  assert (H1 : Forall (fun me => partialOnly (fst me)) examplePartials).
  { repeat constructor. }
  assert (H2 : partialOnly (bothPartials "what" "re")).
  { split; reflexivity. }
  split; [exact H1|]. split; [exact H2|].
  exact (partial_transcripts_append_and_replace examplePartials
           (bothPartials "what" "re") (playbackAt 0 0 0) initialService H1 H2).
Defined.

(** C1.  A bot transcription without text is not skipped: the handler reads
    [text] without a guard and appends it, so after the delta "Hi" the turn
    reported for the text-less transcription reads "Hiundefined", and not
    the concatenation "Hi" of the deltas received; the accumulator keeps that
    text. *)
Theorem textless_bot_partial_appends_undefined :
  transcriptUpdates
    (trace (handleSessionMessages
              [(botPartial "Hi", playbackAt 0 0 0);
               (textlessBotPartial, playbackAt 0 0 0)] initialService))
  = [ {| author := bot; text := "Hi"; isFinal := false; grounding := Some [] |};
      {| author := bot; text := "Hiundefined"; isFinal := false;
         grounding := Some [] |} ] /\
  currentOutputTranscription
    (finalState (handleSessionMessages
                   [(botPartial "Hi", playbackAt 0 0 0);
                    (textlessBotPartial, playbackAt 0 0 0)] initialService))
  = "Hiundefined".
Proof. split; reflexivity. Qed.

(** ** Turn completion (C7) *)

Lemma truthy_false (s : string) : Js.truthy s = false -> s = "".
Proof. destruct s; [reflexivity | discriminate]. Qed.

(** The falsy values of a text slot: the empty string and [undefined]. *)
Lemma truthy_false_text (t : Text) :
  Js.truthy t = false -> t = "" \/ t = undefined.
Proof.
  destruct t as [[|c r]|]; [left; reflexivity | discriminate | right; reflexivity].
Qed.

Lemma finalTurns_app (a : Author) (t1 t2 : list Event) :
  finalTurns a (t1 ++ t2) = finalTurns a t1 ++ finalTurns a t2.
Proof. unfold finalTurns. rewrite transcriptUpdates_app, filter_app. reflexivity. Qed.

(** The turn-complete block, from any state of the accumulators. *)
Lemma onTurnComplete_finalizes (m : Wire.LiveServerMessage) (s : GeminiService) :
  flag Wire.turnComplete m = true ->
  let r := onTurnComplete m s in
  finalTurns user (trace r) =
    (if Js.truthy (currentInputTranscription s)
     then [{| author := user; text := currentInputTranscription s; isFinal := true;
              grounding := None |}]
     else []) /\
  finalTurns bot (trace r) =
    (if Js.truthy (currentOutputTranscription s)
     then [{| author := bot; text := currentOutputTranscription s; isFinal := true;
              grounding := Some (currentGrounding s) |}]
     else []) /\
  transcriptUpdates (trace r) = finalTurns user (trace r) ++ finalTurns bot (trace r) /\
  (currentInputTranscription (finalState r) = "" \/
   currentInputTranscription s = undefined /\
   currentInputTranscription (finalState r) = undefined) /\
  currentOutputTranscription (finalState r) = "" /\
  (Js.truthy (currentOutputTranscription s) = true -> currentGrounding (finalState r) = []).
Proof.
  intros Htc. simpl. rewrite onTurnComplete_eq, Htc.
  destruct s as [se sp ic oc ms pr so os nst cin cout cg]. simpl.
  assert (Hfalsy : Js.truthy cin = false ->
                   cin = "" \/ cin = undefined /\ cin = undefined).
  { intros H. destruct (truthy_false_text cin H); [left | right]; auto. }
  destruct (Js.truthy cin) eqn:Hin, (Js.truthy cout) eqn:Hout; simpl;
    repeat split; try reflexivity; try discriminate;
    auto using truthy_false.
Qed.

Lemma playIfPresent_frame (d : option string) (env : PlaybackEnv) (s : GeminiService) :
  let r := match d with
           | Some b => when (Js.truthy b) (playStreamedAudio b env)
           | None => skip
           end s in
  transcriptUpdates (trace r) = [] /\
  statusUpdates (trace r) = [] /\
  currentInputTranscription (finalState r) = currentInputTranscription s /\
  currentOutputTranscription (finalState r) = currentOutputTranscription s /\
  currentGrounding (finalState r) = currentGrounding s.
Proof.
  destruct d as [b|]; simpl; [|repeat split; reflexivity].
  unfold when. destruct (Js.truthy b); [apply playStreamedAudio_frame|].
  repeat split; reflexivity.
Qed.

Lemma finalTurns_partials (a : Author) (m : Wire.LiveServerMessage) (s : GeminiService) :
  finalTurns a (trace (onInputTranscription m s)) = [] /\
  forall s', finalTurns a (trace (onOutputTranscription m s')) = [].
Proof.
  split; [|intros s']; rewrite ?onInputTranscription_eq, ?onOutputTranscription_eq.
  - destruct (field Wire.inputTranscription m); reflexivity.
  - destruct (field Wire.outputTranscription m); reflexivity.
Qed.

(** The final turns of the interruption block: the bot's, when the bot
    accumulator is non-empty. *)
Lemma finalTurns_onInterrupted (m : Wire.LiveServerMessage) (s : GeminiService) :
  finalTurns user (trace (onInterrupted m s)) = [] /\
  finalTurns bot (trace (onInterrupted m s)) =
    (if flag Wire.interrupted m && Js.truthy (currentOutputTranscription s)
     then [{| author := bot; text := currentOutputTranscription s; isFinal := true;
              grounding := Some (currentGrounding s) |}]
     else []).
Proof.
  rewrite onInterrupted_eq. unfold finalTurns.
  destruct (flag Wire.interrupted m); [|split; reflexivity].
  destruct (Js.truthy (currentOutputTranscription s)); simpl;
    rewrite ?transcriptUpdates_app, transcriptUpdates_outputStop;
    split; reflexivity.
Qed.

(** X14.  A message with the turn-complete signal whose audio field is read
    without a [TypeError]: with [mid] the fields when the turn-complete block
    is reached, each author whose accumulator is then non-empty gets exactly
    one final turn from that block, carrying that non-empty text (and, for
    the bot, the grounding buffer); an author whose accumulator is empty (or,
    for the user, without text) gets none.  The only other final turn of the
    message is the bot's of the interruption block.  Afterwards the bot
    accumulator is empty, the user accumulator is empty or still without
    text, and the grounding buffer is empty when the bot turn was
    finalized. *)
Theorem turnComplete_finalizes_each_author
  (m : Wire.LiveServerMessage) (env : PlaybackEnv) (s : GeminiService)
  (d : option string) :
  flag Wire.turnComplete m = true ->
  audioDataOf m = normal d ->
  let mid :=
    finalState
      ((onInterrupted m ;; onInputTranscription m ;; onOutputTranscription m) s) in
  let r := handleSessionMessage m env s in
  finalTurns user (trace r) =
    (if Js.truthy (currentInputTranscription mid)
     then [{| author := user; text := currentInputTranscription mid; isFinal := true;
              grounding := None |}]
     else []) /\
  finalTurns bot (trace r) =
    (if flag Wire.interrupted m && Js.truthy (currentOutputTranscription s)
     then [{| author := bot; text := currentOutputTranscription s; isFinal := true;
              grounding := Some (currentGrounding s) |}]
     else []) ++
    (if Js.truthy (currentOutputTranscription mid)
     then [{| author := bot; text := currentOutputTranscription mid; isFinal := true;
              grounding := Some (currentGrounding mid) |}]
     else []) /\
  (currentInputTranscription (finalState r) = "" \/
   currentInputTranscription mid = undefined /\
   currentInputTranscription (finalState r) = undefined) /\
  currentOutputTranscription (finalState r) = "" /\
  (Js.truthy (currentOutputTranscription mid) = true ->
   currentGrounding (finalState r) = []).
Proof.
  intros Htc Hd mid r. subst mid r.
  unfold handleSessionMessage, onAudioAndTurnComplete. rewrite Hd.
  rewrite !andThen_trace, !andThen_finalState, !finalTurns_app.
  destruct (finalTurns_onInterrupted m s) as (-> & ->).
  set (s0 := finalState (onInterrupted m s)).
  destruct (finalTurns_partials user m s0) as (-> & ->).
  destruct (finalTurns_partials bot m s0) as (-> & ->).
  set (mid := finalState (onOutputTranscription m (finalState (onInputTranscription m s0)))).
  destruct (playIfPresent_frame d env mid) as (Ht & _ & Hin & Hout & Hg).
  assert (Hf : forall a,
             finalTurns a
               (trace (match d with
                       | Some b => when (Js.truthy b) (playStreamedAudio b env)
                       | None => skip
                       end mid)) = []).
  { intros a. unfold finalTurns. rewrite Ht. reflexivity. }
  rewrite !Hf. simpl app.
  match goal with
  | |- context [onTurnComplete m ?s3] =>
      destruct (onTurnComplete_finalizes m s3 Htc) as (Hu & Hb & _ & Hci & Hco & Hcg)
  end.
  rewrite Hin in Hu, Hci. rewrite Hout, Hg in Hb. rewrite Hout in Hcg.
  split; [exact Hu|]. split; [rewrite Hb; reflexivity|].
  split; [exact Hci|]. split; [exact Hco | exact Hcg].
Qed.

Lemma turnComplete_finalizes_each_author_witness :
  flag Wire.turnComplete turnCompleteMessage = true /\
  audioDataOf turnCompleteMessage = normal None /\
  finalTurns user
    (trace (handleSessionMessage turnCompleteMessage (playbackAt 0 0 0) conversingService))
  = [{| author := user; text := "hello"; isFinal := true; grounding := None |}] /\
  finalTurns bot
    (trace (handleSessionMessage turnCompleteMessage (playbackAt 0 0 0) conversingService))
  = [{| author := bot; text := "Hi the"; isFinal := true;
        grounding := Some [{| title := "Source"; uri := "https://example.org" |}] |}] /\
  currentInputTranscription
    (finalState (handleSessionMessage turnCompleteMessage (playbackAt 0 0 0)
                   conversingService)) = "" /\
  currentOutputTranscription
    (finalState (handleSessionMessage turnCompleteMessage (playbackAt 0 0 0)
                   conversingService)) = "" /\
  currentGrounding
    (finalState (handleSessionMessage turnCompleteMessage (playbackAt 0 0 0)
                   conversingService)) = [].
Proof.
  split; [reflexivity|]. split; [reflexivity|].
  destruct (turnComplete_finalizes_each_author turnCompleteMessage (playbackAt 0 0 0)
              conversingService None eq_refl eq_refl)
    as (Hu & Hb & Hci & Hco & Hcg).
  split; [exact Hu|]. split; [exact Hb|].
  split; [destruct Hci as [Hci | [Hmid _]]; [exact Hci | discriminate Hmid]|].
  split; [exact Hco | exact (Hcg eq_refl)].
Defined.

(** C7.  A turn-complete message whose model turn starts with a part without
    inline data finalizes nothing: reading the audio field throws, the
    handler ends there, and with both accumulators non-empty no final turn is
    reported and no field is cleared. *)
Theorem turnComplete_after_unreadable_part_finalizes_nothing :
  flag Wire.turnComplete turnCompleteWithTextPart = true /\
  audioDataOf turnCompleteWithTextPart = throw /\
  Js.truthy (currentInputTranscription conversingService) = true /\
  Js.truthy (currentOutputTranscription conversingService) = true /\
  trace (handleSessionMessage turnCompleteWithTextPart (playbackAt 0 0 0)
           conversingService) = [unhandledRejection] /\
  finalState (handleSessionMessage turnCompleteWithTextPart (playbackAt 0 0 0)
                conversingService) = conversingService.
Proof.
  split; [reflexivity|]. split; [reflexivity|]. split; [reflexivity|].
  split; [reflexivity|]. split; reflexivity.
Qed.

(** ** Grounding sources (C8) *)


















(** ** Interruption (C2) *)

Lemma outputStarts_app (t1 t2 : list Event) :
  outputStarts (t1 ++ t2) = outputStarts t1 ++ outputStarts t2.
Proof.
  induction t1 as [|e t1 IH]; simpl; [reflexivity|].
  destruct e; simpl; rewrite ?IH; reflexivity.
Qed.

Lemma outputStops_app (t1 t2 : list Event) :
  outputStops (t1 ++ t2) = outputStops t1 ++ outputStops t2.
Proof.
  induction t1 as [|e t1 IH]; simpl; [reflexivity|].
  destruct e; simpl; rewrite ?IH; reflexivity.
Qed.

Lemma outputStops_outputStop (l : list SourceId) :
  outputStops (map outputStop l) = l.
Proof. induction l; simpl; congruence. Qed.

Lemma outputStarts_outputStop (l : list SourceId) :
  outputStarts (map outputStop l) = [].
Proof. induction l; simpl; auto. Qed.

(** The two transcription blocks leave the playback state alone. *)
Lemma transcription_blocks_frame (m : Wire.LiveServerMessage) (s : GeminiService) :
  let r1 := onInputTranscription m s in
  let r2 := onOutputTranscription m (finalState r1) in
  outputStarts (trace r1) = [] /\ outputStops (trace r1) = [] /\
  outputStarts (trace r2) = [] /\ outputStops (trace r2) = [] /\
  nextStartTime (finalState r2) = nextStartTime s /\
  outputAudioContext (finalState r2) = outputAudioContext s /\
  outputSources (finalState r2) = outputSources s.
Proof.
  simpl. rewrite onOutputTranscription_eq, !onInputTranscription_eq.
  destruct (field Wire.inputTranscription m), (field Wire.outputTranscription m);
    simpl; repeat split; reflexivity.
Qed.

Lemma onTurnComplete_playback (m : Wire.LiveServerMessage) (s : GeminiService) :
  let r := onTurnComplete m s in
  outputStarts (trace r) = [] /\ outputStops (trace r) = [] /\
  nextStartTime (finalState r) = nextStartTime s /\
  outputSources (finalState r) = outputSources s.
Proof.
  simpl. rewrite onTurnComplete_eq. destruct (flag Wire.turnComplete m); cbv zeta;
    [|repeat split; reflexivity].
  destruct (Js.truthy (currentInputTranscription s)),
           (Js.truthy (currentOutputTranscription s)); simpl; repeat split; reflexivity.
Qed.

(** What the tail of the handler schedules. *)
Lemma onAudioAndTurnComplete_playback
  (m : Wire.LiveServerMessage) (env : PlaybackEnv) (s : GeminiService) :
  let r := onAudioAndTurnComplete m env s in
  outputStops (trace r) = [] /\
  if playsAudio m && hasOutputContext s then
    outputStarts (trace r)
      = [(bufferSource env, Qmax (nextStartTime s) (currentTime env))] /\
    nextStartTime (finalState r)
      = (Qmax (nextStartTime s) (currentTime env) + duration (audioBuffer env))%Q /\
    outputSources (finalState r) = Js.setAdd (bufferSource env) (outputSources s)
  else
    outputStarts (trace r) = [] /\
    nextStartTime (finalState r) = nextStartTime s /\
    outputSources (finalState r) = outputSources s.
Proof.
  simpl. unfold onAudioAndTurnComplete, playsAudio, hasOutputContext.
  destruct (audioDataOf m) as [[b|]|]; simpl.
  - rewrite andThen_trace, andThen_finalState, outputStops_app, outputStarts_app.
    match goal with
    | |- context [onTurnComplete m ?s1] =>
        destruct (onTurnComplete_playback m s1) as (-> & -> & -> & ->)
    end.
    unfold when. destruct (Js.truthy b); simpl.
    + rewrite playStreamedAudio_eq. destruct (outputAudioContext s); simpl;
        repeat split; reflexivity.
    + repeat split; reflexivity.
  - rewrite andThen_trace, andThen_finalState, outputStops_app, outputStarts_app.
    match goal with
    | |- context [onTurnComplete m ?s1] =>
        destruct (onTurnComplete_playback m s1) as (-> & -> & -> & ->)
    end.
    repeat split; reflexivity.
  - repeat split; reflexivity.
Qed.

(** What the tail of the handler does to the playback state, for the state
    it runs in as found in the goal. *)
Ltac tail_playback m env Hp :=
  match goal with
  | |- context [onAudioAndTurnComplete m env ?s2] =>
      pose proof (onAudioAndTurnComplete_playback m env s2) as Hp;
      cbv zeta in Hp; destruct Hp as (_ & Hp)
  end.

(** C2.  A message with the interruption signal is handled as the
    interruption block followed by the remaining blocks.  The interruption
    block stops every live source, then reports the bot turn as final with
    its grounding when the bot accumulator is not empty; it leaves the live
    set empty, the watermark at zero, the bot accumulator empty and the user
    accumulator as it was.  The remaining blocks stop nothing, and a chunk of
    the same message is started only there, at the clock time clamped from
    the reset watermark. *)
Theorem interruption_precedes_playback
  (m : Wire.LiveServerMessage) (env : PlaybackEnv) (s : GeminiService) :
  flag Wire.interrupted m = true ->
  let cut := onInterrupted m s in
  let rest := (onInputTranscription m ;; onOutputTranscription m ;;
               onAudioAndTurnComplete m env) (finalState cut) in
  (trace (handleSessionMessage m env s) = trace cut ++ trace rest /\
   finalState (handleSessionMessage m env s) = finalState rest) /\
  trace cut =
    map outputStop (outputSources s) ++
    (if Js.truthy (currentOutputTranscription s)
     then [onTranscriptUpdate
             {| author := bot; text := currentOutputTranscription s; isFinal := true;
                grounding := Some (currentGrounding s) |}]
     else []) /\
  outputSources (finalState cut) = [] /\
  nextStartTime (finalState cut) = 0%Q /\
  currentInputTranscription (finalState cut) = currentInputTranscription s /\
  currentOutputTranscription (finalState cut) = "" /\
  outputStops (trace rest) = [] /\
  outputStarts (trace rest) =
    (if playsAudio m && hasOutputContext s
     then [(bufferSource env, Qmax 0 (currentTime env))]
     else []).
Proof.
  intros Hi cut rest. subst cut rest.
  split.
  { unfold handleSessionMessage. rewrite andThen_trace, andThen_finalState. auto. }
  rewrite !onInterrupted_eq, Hi. cbv zeta.
  set (s0 := if Js.truthy (currentOutputTranscription s)
             then set_currentGrounding []
                    (set_currentOutputTranscription ""
                       (set_nextStartTime 0%Q (set_outputSources [] s)))
             else set_nextStartTime 0%Q (set_outputSources [] s)).
  assert (Hs0 : outputSources s0 = [] /\ nextStartTime s0 = 0%Q /\
                currentInputTranscription s0 = currentInputTranscription s /\
                currentOutputTranscription s0 = "" /\
                outputAudioContext s0 = outputAudioContext s).
  { subst s0. destruct (Js.truthy (currentOutputTranscription s)) eqn:Ht; simpl;
      repeat split; try reflexivity. apply truthy_false, Ht. }
  destruct Hs0 as (Hos & Hnst & Hcin & Hcout & Hctx).
  assert (Hfst : finalState
                   (if Js.truthy (currentOutputTranscription s)
                    then (set_currentGrounding []
                            (set_currentOutputTranscription ""
                               (set_nextStartTime 0%Q (set_outputSources [] s))),
                          map outputStop (outputSources s) ++
                          [onTranscriptUpdate
                             {| author := bot; text := currentOutputTranscription s;
                                isFinal := true;
                                grounding := Some (currentGrounding s) |}])
                    else (set_nextStartTime 0%Q (set_outputSources [] s),
                          map outputStop (outputSources s))) = s0).
  { subst s0. destruct (Js.truthy (currentOutputTranscription s)); reflexivity. }
  rewrite !Hfst.
  split.
  { destruct (Js.truthy (currentOutputTranscription s)); simpl;
      rewrite ?app_nil_r; reflexivity. }
  repeat (split; [assumption|]).
  rewrite !andThen_trace, ?andThen_finalState, !outputStops_app, !outputStarts_app.
  destruct (transcription_blocks_frame m s0) as (Ha & Hb & Hc & Hd & Hn & Hx & _).
  cbv zeta in Hc, Hd, Hn, Hx.
  rewrite Ha, Hb, Hc, Hd. simpl.
  match goal with
  | |- context [onAudioAndTurnComplete m env ?s2] =>
      pose proof (onAudioAndTurnComplete_playback m env s2) as Hp;
      cbv zeta in Hp; destruct Hp as (Hstop & Hp)
  end.
  split; [exact Hstop|].
  unfold hasOutputContext in *. rewrite Hx, Hctx, Hn, Hnst in Hp.
  destruct (playsAudio m && match outputAudioContext s with Some _ => true | None => false end);
    [destruct Hp as (Hp & _) | destruct Hp as (Hp & _)]; exact Hp.
Qed.

Lemma interruption_precedes_playback_witness :
  flag Wire.interrupted (interruptedWithAudio "AAAA") = true /\
  trace (handleSessionMessage (interruptedWithAudio "AAAA") (playbackAt 5 2 9)
           conversingService)
  = [outputStop 7; outputStop 8;
     onTranscriptUpdate
       {| author := bot; text := "Hi the"; isFinal := true;
          grounding := Some [{| title := "Source"; uri := "https://example.org" |}] |};
     outputStart 9 (Qmax 0 5)] /\
  outputStops
    (trace ((onInputTranscription (interruptedWithAudio "AAAA") ;;
             onOutputTranscription (interruptedWithAudio "AAAA") ;;
             onAudioAndTurnComplete (interruptedWithAudio "AAAA") (playbackAt 5 2 9))
              (finalState (onInterrupted (interruptedWithAudio "AAAA") conversingService))))
  = [] /\
  currentInputTranscription
    (finalState (onInterrupted (interruptedWithAudio "AAAA") conversingService)) = "hello".
Proof.
  split; [reflexivity|].
  destruct (interruption_precedes_playback (interruptedWithAudio "AAAA")
              (playbackAt 5 2 9) conversingService eq_refl)
    as ((Ht & _) & _ & _ & _ & Hin & _ & Hstops & _).
  split; [rewrite Ht; reflexivity|].
  split; [exact Hstops | exact Hin].
Defined.

(** ** The playback watermark (C3) *)

Lemma Qmax_left (a b : Q) : (b <= a)%Q -> Qmax a b = a.
Proof.
  intros H. unfold Qmax, GenericMinMax.gmax.
  destruct (Qcompare a b) eqn:E; try reflexivity.
  apply Qlt_alt in E. exfalso. exact (Qlt_not_le _ _ E H).
Qed.

Lemma playStreamedAudio_watermark (b : string) (env : PlaybackEnv) (s : GeminiService) :
  hasOutputContext s = true ->
  nextStartTime (finalState (playStreamedAudio b env s))
    = (Qmax (nextStartTime s) (currentTime env) + duration (audioBuffer env))%Q /\
  outputStarts (trace (playStreamedAudio b env s))
    = [(bufferSource env, Qmax (nextStartTime s) (currentTime env))].
Proof.
  unfold hasOutputContext. rewrite playStreamedAudio_eq.
  destruct (outputAudioContext s); [split; reflexivity | discriminate].
Qed.

Lemma handleSessionMessage_watermark
  (m : Wire.LiveServerMessage) (env : PlaybackEnv) (s : GeminiService) :
  advancing (m, env) ->
  (nextStartTime s <= nextStartTime (finalState (handleSessionMessage m env s)))%Q.
Proof.
  intros [Hi Hd]. simpl in Hi, Hd. unfold handleSessionMessage.
  rewrite !andThen_finalState, onInterrupted_eq, Hi. simpl finalState.
  destruct (transcription_blocks_frame m s) as (_ & _ & _ & _ & Hn & _ & _).
  cbv zeta in Hn.
  tail_playback m env Hp.
  destruct (playsAudio m && hasOutputContext _).
  - destruct Hp as (_ & -> & _). rewrite Hn.
    pose proof (Q.le_max_l (nextStartTime s) (currentTime env)). lra.
  - destruct Hp as (_ & -> & _). rewrite Hn. apply Qle_refl.
Qed.

Lemma handleSessionMessages_watermark
  (messages : list (Wire.LiveServerMessage * PlaybackEnv)) (s : GeminiService) :
  Forall advancing messages ->
  (nextStartTime s <= nextStartTime (finalState (handleSessionMessages messages s)))%Q.
Proof.
  intros H. revert s. induction H as [|[m env] rest Hm Hrest IH]; intros s; simpl.
  - apply Qle_refl.
  - rewrite andThen_finalState.
    eapply Qle_trans; [apply (handleSessionMessage_watermark m env s Hm) | apply IH].
Qed.

(** C3, as the code has it.  Whatever was handled before, over further
    messages without an interruption signal (and buffers of non-negative
    duration) the watermark never decreases.  A scheduling step starts the
    buffer at the larger of the previous watermark and the clock of the
    output context, and leaves the watermark at that start time plus the
    duration of the buffer; this is the previous watermark plus the duration
    whenever the previous watermark is not behind the clock. *)
Theorem watermark_monotone_and_advance
  (earlier later : list (Wire.LiveServerMessage * PlaybackEnv)) (s : GeminiService) :
  Forall advancing later ->
  (nextStartTime (finalState (handleSessionMessages earlier s)) <=
   nextStartTime (finalState (handleSessionMessages (earlier ++ later) s)))%Q /\
  (forall (b : string) (env : PlaybackEnv) (s' : GeminiService),
     hasOutputContext s' = true ->
     let r := playStreamedAudio b env s' in
     outputStarts (trace r)
       = [(bufferSource env, Qmax (nextStartTime s') (currentTime env))] /\
     nextStartTime (finalState r)
       = (Qmax (nextStartTime s') (currentTime env) + duration (audioBuffer env))%Q /\
     ((currentTime env <= nextStartTime s')%Q ->
      nextStartTime (finalState r)
        = (nextStartTime s' + duration (audioBuffer env))%Q) /\
     ((0 <= duration (audioBuffer env))%Q ->
      (nextStartTime s' <= nextStartTime (finalState r))%Q)).
Proof.
  intros H. split.
  { rewrite handleSessionMessages_app, andThen_finalState.
    apply handleSessionMessages_watermark, H. }
  intros b env s' Hctx r. subst r.
  destruct (playStreamedAudio_watermark b env s' Hctx) as (Hn & Hs).
  split; [exact Hs|]. split; [exact Hn|]. split.
  - intros Hle. rewrite Hn, (Qmax_left _ _ Hle). reflexivity.
  - intros Hd. rewrite Hn.
    pose proof (Q.le_max_l (nextStartTime s') (currentTime env)). lra.
Qed.

Lemma watermark_monotone_and_advance_witness :
  Forall advancing examplePlayback /\
  Qle (nextStartTime
         (finalState (handleSessionMessages [(audioMessage "AAAA", playbackAt 1 4 6)]
                        connectingService)))
      (nextStartTime
         (finalState (handleSessionMessages
                        ([(audioMessage "AAAA", playbackAt 1 4 6)] ++ examplePlayback)
                        connectingService))) /\
  nextStartTime
    (finalState (handleSessionMessages [(audioMessage "AAAA", playbackAt 1 4 6)]
                   connectingService)) = 5%Q /\
  nextStartTime
    (finalState (handleSessionMessages
                   ([(audioMessage "AAAA", playbackAt 1 4 6)] ++ examplePlayback)
                   connectingService)) = 10%Q.
Proof.
  assert (H : Forall advancing examplePlayback).
  { repeat constructor; simpl; discriminate. }
  split; [exact H|]. split; [|split; reflexivity].
  exact (proj1 (watermark_monotone_and_advance
                  [(audioMessage "AAAA", playbackAt 1 4 6)] examplePlayback
                  connectingService H)).
Defined.

(** C3, as stated, fails twice: a chunk scheduled when the watermark is
    behind the clock leaves the watermark at clock plus duration, not at
    previous watermark plus duration; and an interruption takes the watermark
    of an active session back to zero. *)
Lemma watermark_counterexample :
  (nextStartTime connectingService = 0%Q /\
   nextStartTime
     (finalState (playStreamedAudio "AAAA" (playbackAt 5 2 9) connectingService)) = 7%Q /\
   ~ (7 == 0 + 2)%Q) /\
  (nextStartTime conversingService = 3%Q /\
   nextStartTime
     (finalState (handleSessionMessage interruptedMessage (playbackAt 5 2 9)
                    conversingService)) = 0%Q /\
   (0 < 3)%Q).
Proof.
  repeat split; try reflexivity. intros H. discriminate H.
Qed.

(** ** The capture callback and the connect promise (C5) *)

Lemma sentBlobs_sends (h : Handle) (blobs : list Blob) :
  sentBlobs (map (sendRealtimeInput h) blobs) = blobs.
Proof. induction blobs; simpl; congruence. Qed.

Lemma captureFrames_stopped (blobs : list Blob) (w : World) :
  sessionPromise (service w) = None -> captureFrames blobs w = (w, []).
Proof.
  intros H. induction blobs as [|b rest IH]; simpl; [reflexivity|].
  unfold onaudioprocess. rewrite H, IH. reflexivity.
Qed.

Lemma captureFrames_fulfilled (blobs : list Blob) (w : World) (p h : Handle) :
  sessionPromise (service w) = Some p -> connectPromise w = fulfilled h ->
  captureFrames blobs w = (w, map (sendRealtimeInput h) blobs).
Proof.
  intros Hp Hf. induction blobs as [|b rest IH]; simpl; [reflexivity|].
  unfold onaudioprocess. rewrite Hp, Hf, IH. reflexivity.
Qed.

Lemma captureFrames_rejected (blobs : list Blob) (w : World) (p : Handle) :
  sessionPromise (service w) = Some p -> connectPromise w = rejected ->
  captureFrames blobs w = (w, []).
Proof.
  intros Hp Hf. induction blobs as [|b rest IH]; simpl; [reflexivity|].
  unfold onaudioprocess. rewrite Hp, Hf, IH. reflexivity.
Qed.

Lemma captureFrames_pending (blobs : list Blob) (w : World) (p : Handle)
  (queued : list Blob) :
  sessionPromise (service w) = Some p -> connectPromise w = pending queued ->
  captureFrames blobs w =
    ({| service := service w; connectPromise := pending (queued ++ blobs) |}, []).
Proof.
  revert w queued. induction blobs as [|b rest IH]; intros w queued Hp Hq; simpl.
  - rewrite app_nil_r, <- Hq. destruct w; reflexivity.
  - unfold onaudioprocess. rewrite Hp, Hq.
    rewrite (IH {| service := service w; connectPromise := pending (queued ++ [b]) |}
               (queued ++ [b]) Hp eq_refl). simpl.
    rewrite <- app_assoc. reflexivity.
Qed.

(** C5, as the code has it.  What happens to captured frames is decided by
    the [sessionPromise] field and the state of the promise it refers to.
    With the field [null] the frames are dropped.  With the promise fulfilled
    each frame is handed to the transport at once.  With the promise pending
    nothing is sent yet, but each frame is registered on the promise, and
    when the promise is fulfilled every registered frame is handed to the
    transport, in capture order.  Frames registered on a promise that is
    rejected are never sent. *)
Theorem frames_follow_the_connect_promise (blobs : list Blob) (w : World) :
  (sessionPromise (service w) = None -> captureFrames blobs w = (w, [])) /\
  (forall p h : Handle,
     sessionPromise (service w) = Some p -> connectPromise w = fulfilled h ->
     captureFrames blobs w = (w, map (sendRealtimeInput h) blobs)) /\
  (forall (p h : Handle) (queued : list Blob),
     sessionPromise (service w) = Some p -> connectPromise w = pending queued ->
     trace (captureFrames blobs w) = [] /\
     trace (connectFulfilled h (finalState (captureFrames blobs w)))
       = map (sendRealtimeInput h) (queued ++ blobs) /\
     sentBlobs (trace (connectFulfilled h (finalState (captureFrames blobs w))))
       = queued ++ blobs) /\
  (forall (p : Handle) (queued : list Blob) (e : ErrorEvent),
     sessionPromise (service w) = Some p -> connectPromise w = pending queued ->
     sentBlobs (trace (connectRejected e (finalState (captureFrames blobs w)))) = []).
Proof.
  split; [apply captureFrames_stopped|].
  split; [apply captureFrames_fulfilled|].
  split.
  - intros p h queued Hp Hq. rewrite (captureFrames_pending blobs w p queued Hp Hq).
    simpl. rewrite sentBlobs_sends. repeat split; reflexivity.
  - intros p queued e Hp Hq. rewrite (captureFrames_pending blobs w p queued Hp Hq).
    unfold connectRejected, finalState, trace, lift. simpl.
    destruct (handleSessionError e (service w)) as [s' t'] eqn:E. simpl.
    assert (Ht : t' = trace (handleSessionError e (service w))) by (rewrite E; reflexivity).
    rewrite Ht. unfold handleSessionError.
    rewrite !andThen_trace, stopSession_trace. simpl.
    unfold releasesOf.
    resource_cases (service w);
      induction (outputSources (service w)); simpl; auto.
Qed.

Lemma frames_follow_the_connect_promise_witness :
  sessionPromise (service connectingWorld) = Some 2 /\
  connectPromise connectingWorld = pending [] /\
  trace (captureFrames [41; 42] connectingWorld) = [] /\
  trace (connectFulfilled 1 (finalState (captureFrames [41; 42] connectingWorld)))
    = [sendRealtimeInput 1 41; sendRealtimeInput 1 42].
Proof.
  split; [reflexivity|]. split; [reflexivity|].
  destruct (frames_follow_the_connect_promise [41; 42] connectingWorld)
    as (_ & _ & H & _).
  destruct (H 2 1 [] eq_refl eq_refl) as (H1 & H2 & _).
  split; [exact H1 | exact H2].
Defined.

(** C5, as stated, fails: a frame captured while the connect promise is
    pending is not sent then, but it is sent when the promise is fulfilled. *)
Lemma frame_before_resolution_counterexample :
  sessionPromise (service connectingWorld) = Some 2 /\
  connectPromise connectingWorld = pending [] /\
  trace (onaudioprocess 41 connectingWorld) = [] /\
  trace (connectFulfilled 1 (finalState (onaudioprocess 41 connectingWorld)))
    = [sendRealtimeInput 1 41].
Proof. repeat split. Qed.

(** ** Opening the session (C6) *)

(** C6, as the code has it.  [LISTENING] is the first effect of the open
    handler: it is reported when the transport opens, before the microphone
    is asked for.  When the microphone is granted no further status is
    reported and the stream is kept; when it is denied, [ERROR] with the
    microphone message is reported next and the session is torn down. *)
Theorem listening_reported_on_open (r : MediaResult) (s : GeminiService) :
  trace (handleSessionOpen r s) =
    onStatusUpdate LISTENING None :: audioCue playStart :: getUserMedia ::
    trace (handleSessionOpen_resume r s) /\
  statusUpdates (trace (handleSessionOpen r s)) =
    (LISTENING, None) ::
    match r with
    | granted _ _ _ => []
    | denied => [(ERROR, Some microphoneDenied)]
    end /\
  mediaStream (finalState (handleSessionOpen r s)) =
    match r with
    | granted stream _ _ => Some stream
    | denied => None
    end.
Proof.
  unfold handleSessionOpen, handleSessionOpen_begin.
  rewrite !andThen_trace, !andThen_finalState. simpl.
  split; [reflexivity|].
  destruct r as [stream sourceNode processorNode|]; simpl.
  - destruct s as [se sp ic oc ms pr so os nst cin cout cg].
    destruct ic; split; reflexivity.
  - rewrite andThen_trace, andThen_finalState. simpl.
    rewrite stopSession_trace. simpl. rewrite statusUpdates_releasesOf.
    split; [reflexivity|].
    destruct s as [se sp ic oc ms pr so os nst cin cout cg].
    destruct se, ms, so, pr, ic as [[[]]|], oc as [[[]]|]; reflexivity.
Qed.

(** C6, as stated, fails: when the microphone is denied, [LISTENING] has been
    reported all the same, before the request was even made, and no stream
    was ever acquired. *)
Lemma listening_before_acquisition_counterexample :
  trace (handleSessionOpen_begin connectingService)
    = [onStatusUpdate LISTENING None; audioCue playStart; getUserMedia] /\
  statusUpdates (trace (handleSessionOpen denied connectingService))
    = [(LISTENING, None); (ERROR, Some microphoneDenied)] /\
  mediaStream (finalState (handleSessionOpen denied connectingService)) = None.
Proof. repeat split. Qed.

(** ** The live set holds each source once *)

Lemma setAdd_NoDup (x : nat) (l : list nat) :
  NoDup l -> NoDup (Js.setAdd x l).
Proof.
  intros H. unfold Js.setAdd. destruct (existsb (Nat.eqb x) l) eqn:E; [exact H|].
  apply NoDup_app; [exact H | repeat constructor; intros [] |].
  intros y Hy [<-|[]].
  assert (Hex : existsb (Nat.eqb x) l = true).
  { apply existsb_exists. exists x. split; [exact Hy | apply Nat.eqb_refl]. }
  rewrite Hex in E. discriminate.
Qed.

Lemma setDelete_NoDup (x : nat) (l : list nat) :
  NoDup l -> NoDup (Js.setDelete x l).
Proof. apply NoDup_filter. Qed.

Lemma handleSessionMessage_NoDup
  (m : Wire.LiveServerMessage) (env : PlaybackEnv) (s : GeminiService) :
  NoDup (outputSources s) ->
  NoDup (outputSources (finalState (handleSessionMessage m env s))).
Proof.
  intros H. unfold handleSessionMessage. rewrite !andThen_finalState.
  assert (H0 : NoDup (outputSources (finalState (onInterrupted m s)))).
  { rewrite onInterrupted_eq. destruct (flag Wire.interrupted m); [|exact H].
    cbv zeta. destruct (Js.truthy (currentOutputTranscription s)); simpl; constructor. }
  destruct (transcription_blocks_frame m (finalState (onInterrupted m s)))
    as (_ & _ & _ & _ & _ & _ & Hos).
  cbv zeta in Hos. rewrite <- Hos in H0.
  tail_playback m env Hp.
  destruct (playsAudio m && hasOutputContext _); destruct Hp as (_ & _ & ->);
    [apply setAdd_NoDup|]; exact H0.
Qed.

Lemma handleSessionMessages_NoDup
  (messages : list (Wire.LiveServerMessage * PlaybackEnv)) (s : GeminiService) :
  NoDup (outputSources s) ->
  NoDup (outputSources (finalState (handleSessionMessages messages s))).
Proof.
  revert s. induction messages as [|[m env] rest IH]; intros s H; simpl; [exact H|].
  rewrite andThen_finalState. apply IH, handleSessionMessage_NoDup, H.
Qed.

Lemma sourceEnded_NoDup (src : SourceId) (s : GeminiService) :
  NoDup (outputSources s) ->
  NoDup (outputSources (finalState (sourceEnded src s))).
Proof. apply setDelete_NoDup. Qed.

(** ** The transcript reducer of the App *)

Lemma sameAuthor_eq (a b : Author) : sameAuthor a b = true <-> a = b.
Proof. destruct a, b; simpl; split; intros H; try reflexivity; discriminate. Qed.

Lemma sameAuthor_refl (a : Author) : sameAuthor a a = true.
Proof. destruct a; reflexivity. Qed.

(** What [findLastIndex] finds: an element that satisfies the test. *)
Lemma findLastIndex_Some {A : Type} (p : A -> bool) (l : list A) (i : nat) :
  findLastIndex p l = Some i ->
  exists x, nth_error l i = Some x /\ p x = true.
Proof.
  revert i. induction l as [|y l IH]; intros i; simpl; [discriminate|].
  destruct (findLastIndex p l) as [j|].
  - intros H. inversion H; subst. simpl. apply IH. reflexivity.
  - destruct (p y) eqn:E; [|discriminate].
    intros H. inversion H; subst. exists y. split; [reflexivity | exact E].
Qed.

(** [-1] means that no element satisfies the test. *)
Lemma findLastIndex_None {A : Type} (p : A -> bool) (l : list A) :
  findLastIndex p l = None -> filter p l = [].
Proof.
  induction l as [|y l IH]; simpl; [reflexivity|].
  destruct (findLastIndex p l) as [j|]; [discriminate|].
  destruct (p y); [discriminate|]. intros _. apply IH. reflexivity.
Qed.

Lemma replaceAt_length {A : Type} (i : nat) (x : A) (l : list A) :
  length (replaceAt i x l) = length l.
Proof.
  revert i. induction l as [|y l IH]; intros [|i]; simpl; auto.
Qed.

Lemma replaceAt_other {A : Type} (i j : nat) (x : A) (l : list A) :
  i <> j -> nth_error (replaceAt i x l) j = nth_error l j.
Proof.
  revert i j. induction l as [|y l IH]; intros [|i] [|j] H; simpl; auto;
    try contradiction.
Qed.

(** Replacing one element moves the count of a test by what leaves and what
    comes. *)
Lemma replaceAt_count {A : Type} (q : A -> bool) (i : nat) (x y : A) (l : list A) :
  nth_error l i = Some y ->
  length (filter q (replaceAt i x l)) + (if q y then 1 else 0)
  = length (filter q l) + (if q x then 1 else 0).
Proof.
  revert i. induction l as [|z l IH]; intros [|i] H; simpl in *; try discriminate.
  - inversion H; subst. destruct (q x), (q y); simpl; lia.
  - specialize (IH i H). destruct (q z); simpl; lia.
Qed.

Lemma replaceAt_In {A : Type} (i : nat) (x d : A) (l : list A) :
  In d (replaceAt i x l) ->
  d = x \/ exists j, j <> i /\ nth_error l j = Some d.
Proof.
  revert i. induction l as [|z l IH]; intros [|i]; simpl; try contradiction.
  - intros [H|H]; [left; auto|]. right.
    apply In_nth_error in H. destruct H as (j & Hj). exists (S j). split; [lia | exact Hj].
  - intros [H|H].
    + right. exists 0. split; [lia | subst; reflexivity].
    + destruct (IH i H) as [E|(j & Hj & Hn)]; [left; exact E|].
      right. exists (S j). split; [lia | exact Hn].
Qed.

(** One update keeps at most one turn in progress per author. *)
Lemma handleTranscriptUpdate_atMostOneDraft
  (t : TranscriptTurn) (prev : list TranscriptTurn) :
  atMostOneDraft prev -> atMostOneDraft (handleTranscriptUpdate t prev).
Proof.
  intros H a. unfold handleTranscriptUpdate.
  destruct (findLastIndex _ prev) as [i|] eqn:E.
  - apply findLastIndex_Some in E. destruct E as (y & Hy & Hp).
    pose proof (replaceAt_count (isDraftOf a) i t y prev Hy) as Hc.
    specialize (H a). apply andb_true_iff in Hp. destruct Hp as [Hau Hfin].
    apply sameAuthor_eq in Hau.
    assert (Hqy : isDraftOf a y = sameAuthor (author t) a).
    { unfold isDraftOf. rewrite Hau, Hfin. apply andb_true_r. }
    assert (Hqt : isDraftOf a t = sameAuthor (author t) a && negb (isFinal t))
      by reflexivity.
    rewrite Hqy, Hqt in Hc.
    destruct (sameAuthor (author t) a); simpl in Hc.
    + destruct (negb (isFinal t)); simpl in Hc; lia.
    + lia.
  - apply findLastIndex_None in E. rewrite filter_app, length_app. simpl.
    unfold isDraftOf at 2.
    destruct (sameAuthor (author t) a) eqn:Hau; simpl.
    + apply sameAuthor_eq in Hau. subst a.
      assert (Hz : filter (isDraftOf (author t)) prev = []) by exact E.
      rewrite Hz. simpl. destruct (negb (isFinal t)); simpl; lia.
    + specialize (H a). lia.
Qed.

(** X1.  Through any run of updates the reducer keeps at most one turn in
    progress per author. *)
Theorem handleTranscriptUpdates_atMostOneDraft
  (turns prev : list TranscriptTurn) :
  atMostOneDraft prev -> atMostOneDraft (handleTranscriptUpdates turns prev).
Proof.
  revert prev. induction turns as [|t turns IH]; intros prev H; simpl; [exact H|].
  apply IH, handleTranscriptUpdate_atMostOneDraft, H.
Qed.

Lemma handleTranscriptUpdates_atMostOneDraft_witness :
  atMostOneDraft [] /\
  atMostOneDraft (handleTranscriptUpdates exampleTurns []) /\
  handleTranscriptUpdates exampleTurns [] =
    [ {| author := user; text := "what"; isFinal := true; grounding := None |};
      {| author := bot; text := "Hi there"; isFinal := false; grounding := Some [] |};
      {| author := user; text := "and"; isFinal := false; grounding := None |} ].
Proof.
  assert (H : atMostOneDraft []).
  { intros a. simpl. lia. }
  split; [exact H|]. split; [|reflexivity].
  exact (handleTranscriptUpdates_atMostOneDraft exampleTurns [] H).
Defined.

(** One update leaves in place every turn that is final or of another
    author, and adds at most one turn. *)
Lemma handleTranscriptUpdate_keeps (t f : TranscriptTurn)
  (prev : list TranscriptTurn) (i : nat) :
  nth_error prev i = Some f ->
  isFinal f = true \/ author f <> author t ->
  nth_error (handleTranscriptUpdate t prev) i = Some f.
Proof.
  intros Hi Hf. unfold handleTranscriptUpdate.
  destruct (findLastIndex _ prev) as [j|] eqn:E.
  - apply findLastIndex_Some in E. destruct E as (y & Hy & Hp).
    rewrite replaceAt_other; [exact Hi|].
    intros ->. rewrite Hi in Hy. inversion Hy; subst y.
    apply andb_true_iff in Hp. destruct Hp as [Hau Hfin].
    destruct Hf as [Hf|Hf].
    + rewrite Hf in Hfin. discriminate.
    + apply Hf, sameAuthor_eq, Hau.
  - rewrite nth_error_app1; [exact Hi|].
    apply nth_error_Some. rewrite Hi. discriminate.
Qed.

Lemma handleTranscriptUpdate_length (t : TranscriptTurn) (prev : list TranscriptTurn) :
  length prev <= length (handleTranscriptUpdate t prev) <= S (length prev).
Proof.
  unfold handleTranscriptUpdate. destruct (findLastIndex _ prev).
  - rewrite replaceAt_length. lia.
  - rewrite length_app. simpl. lia.
Qed.

(** X2.  Once a turn is final it keeps its place and its content through
    every later update; and from any transcript, the empty one included, a
    run of updates only ever lengthens the transcript, by at most one turn
    per update. *)
Theorem final_turns_keep_their_place (turns prev : list TranscriptTurn) :
  (forall (i : nat) (f : TranscriptTurn),
     nth_error prev i = Some f ->
     isFinal f = true ->
     nth_error (handleTranscriptUpdates turns prev) i = Some f) /\
  length prev <= length (handleTranscriptUpdates turns prev)
              <= length prev + length turns.
Proof.
  revert prev. induction turns as [|t turns IH]; intros prev; simpl.
  - split; [auto | lia].
  - destruct (IH (handleTranscriptUpdate t prev)) as (Hn & Hlen).
    pose proof (handleTranscriptUpdate_length t prev) as Hl.
    split; [|lia].
    intros i f Hi Hf. apply Hn; [|exact Hf].
    apply handleTranscriptUpdate_keeps; [exact Hi | left; exact Hf].
Qed.

Lemma final_turns_keep_their_place_witness :
  nth_error
    (handleTranscriptUpdates (skipn 4 exampleTurns)
       (handleTranscriptUpdates (firstn 4 exampleTurns) [])) 0
    = Some {| author := user; text := "what"; isFinal := true; grounding := None |} /\
  length (handleTranscriptUpdates (firstn 4 exampleTurns) []) <=
  length (handleTranscriptUpdates (skipn 4 exampleTurns)
            (handleTranscriptUpdates (firstn 4 exampleTurns) []))
  <= length (handleTranscriptUpdates (firstn 4 exampleTurns) [])
     + length (skipn 4 exampleTurns).
Proof.
  destruct (final_turns_keep_their_place (skipn 4 exampleTurns)
              (handleTranscriptUpdates (firstn 4 exampleTurns) [])) as (Hk & Hl).
  split; [|exact Hl].
  exact (Hk 0 {| author := user; text := "what"; isFinal := true; grounding := None |}
            eq_refl eq_refl).
Defined.

(** ** The shown transcript follows the accumulators *)

Lemma handleTranscriptUpdates_app (a b prev : list TranscriptTurn) :
  handleTranscriptUpdates (a ++ b) prev
  = handleTranscriptUpdates b (handleTranscriptUpdates a prev).
Proof. revert prev. induction a as [|t a IH]; intros prev; simpl; auto. Qed.

(** Two places that pass a test make the count at least two. *)
Lemma filter_two {A : Type} (q : A -> bool) (l : list A) (i j : nat) (x y : A) :
  nth_error l i = Some x -> nth_error l j = Some y -> i <> j ->
  q x = true -> q y = true -> 2 <= length (filter q l).
Proof.
  revert i j. induction l as [|z l IH]; intros [|i] [|j] Hi Hj Hne Hx Hy;
    simpl in *; try discriminate; try contradiction.
  - inversion Hi; subst z. rewrite Hx. simpl.
    assert (Hin : In y (filter q l)).
    { apply filter_In. split; [eapply nth_error_In; eauto | exact Hy]. }
    destruct (filter q l); [contradiction | simpl; lia].
  - inversion Hj; subst z. rewrite Hy. simpl.
    assert (Hin : In x (filter q l)).
    { apply filter_In. split; [eapply nth_error_In; eauto | exact Hx]. }
    destruct (filter q l); [contradiction | simpl; lia].
  - assert (Hne' : i <> j) by lia.
    specialize (IH i j Hi Hj Hne' Hx Hy). destruct (q z); simpl; lia.
Qed.

(** The turns in progress after an update: the new turn, or a turn of the
    other author that was in progress before. *)
Lemma drafts_after_update (t d : TranscriptTurn) (prev : list TranscriptTurn) :
  atMostOneDraft prev ->
  In d (handleTranscriptUpdate t prev) -> isFinal d = false ->
  d = t \/ (In d prev /\ author d <> author t).
Proof.
  intros Hone Hin Hd. unfold handleTranscriptUpdate in Hin.
  destruct (findLastIndex _ prev) as [i|] eqn:E.
  - apply findLastIndex_Some in E. destruct E as (y & Hy & Hp).
    apply replaceAt_In in Hin. destruct Hin as [->|(j & Hj & Hn)]; [left; reflexivity|].
    right. split; [eapply nth_error_In; eauto|].
    intros Hau. apply andb_true_iff in Hp. destruct Hp as [Hya Hyf].
    apply sameAuthor_eq in Hya.
    assert (H2 : 2 <= length (filter (isDraftOf (author t)) prev)).
    { apply (filter_two _ prev j i d y Hn Hy Hj).
      - unfold isDraftOf. rewrite Hau, sameAuthor_refl, Hd. reflexivity.
      - unfold isDraftOf. rewrite Hya, sameAuthor_refl, Hyf. reflexivity. }
    specialize (Hone (author t)). lia.
  - apply findLastIndex_None in E. apply in_app_iff in Hin.
    destruct Hin as [Hin|[<-|[]]]; [|left; reflexivity].
    right. split; [exact Hin|]. intros Hau.
    assert (Hf : In d (filter
                         (fun turn => sameAuthor (author turn) (author t)
                                      && negb (isFinal turn)) prev)).
    { apply filter_In. split; [exact Hin|].
      rewrite Hau, sameAuthor_refl, Hd. reflexivity. }
    rewrite E in Hf. exact Hf.
Qed.

(** One reported turn, with the accumulators of the other author left as
    they were and the turn showing the new accumulators of its own author. *)
Lemma update_in_step (t : TranscriptTurn) (s s' : GeminiService)
  (prev : list TranscriptTurn) :
  atMostOneDraft prev -> mirrors s prev ->
  match author t with
  | user => currentOutputTranscription s' = currentOutputTranscription s /\
            currentGrounding s' = currentGrounding s
  | bot => currentInputTranscription s' = currentInputTranscription s
  end ->
  (isFinal t = false ->
   match author t with
   | user => text t = currentInputTranscription s' /\ grounding t = None
   | bot => text t = currentOutputTranscription s' /\
            grounding t = Some (currentGrounding s')
   end) ->
  atMostOneDraft (handleTranscriptUpdate t prev) /\
  mirrors s' (handleTranscriptUpdate t prev).
Proof.
  intros Hone Hm Hframe Hnew.
  split; [apply handleTranscriptUpdate_atMostOneDraft, Hone|].
  intros d Hin Hd.
  destruct (drafts_after_update t d prev Hone Hin Hd) as [->|[Hp Hau]].
  - apply Hnew, Hd.
  - specialize (Hm d Hp Hd).
    destruct (author d), (author t); try contradiction.
    + destruct Hm as [-> ->]. rewrite Hframe. auto.
    + destruct Hframe as [Ho Hg]. destruct Hm as [-> ->]. rewrite Ho, Hg. auto.
Qed.

(** A step that reports no turn and keeps the accumulators. *)
Lemma silent_in_step (s s' : GeminiService) (prev : list TranscriptTurn) :
  currentInputTranscription s' = currentInputTranscription s ->
  currentOutputTranscription s' = currentOutputTranscription s ->
  currentGrounding s' = currentGrounding s ->
  mirrors s prev -> mirrors s' prev.
Proof.
  intros Hi Ho Hg Hm d Hin Hd. specialize (Hm d Hin Hd).
  rewrite Hi, Ho, Hg. exact Hm.
Qed.

Lemma andThen_keepsInStep (c1 c2 : Cmd) :
  keepsInStep c1 -> keepsInStep c2 -> keepsInStep (c1 ;; c2).
Proof.
  intros H1 H2 s prev Hone Hm. unfold shownAfter in *.
  rewrite andThen_trace, andThen_finalState, transcriptUpdates_app,
    handleTranscriptUpdates_app.
  destruct (H1 s prev Hone Hm) as [Hone1 Hm1].
  exact (H2 _ _ Hone1 Hm1).
Qed.

Lemma onInputTranscription_keepsInStep (m : Wire.LiveServerMessage) :
  keepsInStep (onInputTranscription m).
Proof.
  intros s prev Hone Hm. unfold shownAfter. rewrite onInputTranscription_eq.
  destruct (field Wire.inputTranscription m) as [tr|]; simpl; [|auto].
  apply (update_in_step _ s); simpl; auto.
Qed.

Lemma onOutputTranscription_keepsInStep (m : Wire.LiveServerMessage) :
  keepsInStep (onOutputTranscription m).
Proof.
  intros s prev Hone Hm. unfold shownAfter. rewrite onOutputTranscription_eq.
  destruct (field Wire.outputTranscription m) as [tr|]; simpl; [|auto].
  apply (update_in_step _ s); simpl; auto.
Qed.

Lemma onInterrupted_keepsInStep (m : Wire.LiveServerMessage) :
  keepsInStep (onInterrupted m).
Proof.
  intros s prev Hone Hm. unfold shownAfter. rewrite onInterrupted_eq.
  destruct (flag Wire.interrupted m); [|simpl; auto].
  cbv zeta. destruct (Js.truthy (currentOutputTranscription s)); simpl.
  - rewrite transcriptUpdates_app, transcriptUpdates_outputStop. simpl.
    apply (update_in_step _ s); simpl; auto. discriminate.
  - rewrite transcriptUpdates_outputStop. simpl. split; [exact Hone|].
    apply (silent_in_step s); auto.
Qed.

Lemma onTurnComplete_keepsInStep (m : Wire.LiveServerMessage) :
  keepsInStep (onTurnComplete m).
Proof.
  intros s prev Hone Hm. unfold shownAfter. rewrite onTurnComplete_eq.
  destruct (flag Wire.turnComplete m); [|simpl; auto].
  cbv zeta.
  destruct (Js.truthy (currentInputTranscription s)),
           (Js.truthy (currentOutputTranscription s)); simpl.
  - destruct (update_in_step
                {| author := user; text := currentInputTranscription s;
                   isFinal := true; grounding := None |}
                s (set_currentInputTranscription "" s) prev Hone Hm)
      as [Hone1 Hm1]; simpl; auto; try discriminate.
    apply (update_in_step _ (set_currentInputTranscription "" s));
      simpl; auto. discriminate.
  - apply (update_in_step _ s); simpl; auto. discriminate.
  - apply (update_in_step _ s); simpl; auto. discriminate.
  - auto.
Qed.

Lemma onAudioAndTurnComplete_keepsInStep
  (m : Wire.LiveServerMessage) (env : PlaybackEnv) :
  keepsInStep (onAudioAndTurnComplete m env).
Proof.
  unfold onAudioAndTurnComplete. destruct (audioDataOf m) as [d|].
  - apply andThen_keepsInStep; [|apply onTurnComplete_keepsInStep].
    intros s prev Hone Hm. unfold shownAfter.
    destruct (playIfPresent_frame d env s) as (Ht & _ & Hi & Ho & Hg).
    rewrite Ht. simpl. split; [exact Hone|].
    apply (silent_in_step s); auto.
  - intros s prev Hone Hm. simpl. auto.
Qed.

Lemma handleSessionMessage_keepsInStep
  (m : Wire.LiveServerMessage) (env : PlaybackEnv) :
  keepsInStep (handleSessionMessage m env).
Proof.
  unfold handleSessionMessage.
  repeat apply andThen_keepsInStep;
    auto using onInterrupted_keepsInStep, onInputTranscription_keepsInStep,
      onOutputTranscription_keepsInStep, onAudioAndTurnComplete_keepsInStep.
Qed.

Lemma handleSessionMessages_keepsInStep
  (messages : list (Wire.LiveServerMessage * PlaybackEnv)) :
  keepsInStep (handleSessionMessages messages).
Proof.
  induction messages as [|[m env] rest IH].
  - intros s prev Hone Hm. simpl. auto.
  - simpl handleSessionMessages.
    apply andThen_keepsInStep; [apply handleSessionMessage_keepsInStep | exact IH].
Qed.

(** X3.  Service and App together: when the turns the service reports for
    any sequence of messages go through the reducer of the App, the shown
    transcript has at most one turn in progress per author, and each such
    turn shows exactly what the service holds for its author at that moment:
    the accumulator as text and, for the bot, the grounding buffer. *)
Theorem shown_drafts_mirror_accumulators
  (messages : list (Wire.LiveServerMessage * PlaybackEnv))
  (s : GeminiService) (prev : list TranscriptTurn) :
  atMostOneDraft prev -> mirrors s prev ->
  atMostOneDraft (shownAfter (handleSessionMessages messages s) prev) /\
  mirrors (finalState (handleSessionMessages messages s))
    (shownAfter (handleSessionMessages messages s) prev).
Proof. apply handleSessionMessages_keepsInStep. Qed.

Lemma shown_drafts_mirror_accumulators_witness :
  atMostOneDraft [] /\ mirrors initialService [] /\
  shownAfter (handleSessionMessages exampleConversation initialService) []
  = [ {| author := user; text := "what"; isFinal := true; grounding := None |};
      {| author := bot; text := "Hi there"; isFinal := true; grounding := Some [] |};
      {| author := user; text := "and"; isFinal := false; grounding := None |} ] /\
  mirrors (finalState (handleSessionMessages exampleConversation initialService))
    (shownAfter (handleSessionMessages exampleConversation initialService) []).
Proof.
  assert (H1 : atMostOneDraft []) by (intros a; simpl; lia).
  assert (H2 : mirrors initialService []) by (intros d []).
  split; [exact H1|]. split; [exact H2|]. split; [reflexivity|].
  exact (proj2 (shown_drafts_mirror_accumulators exampleConversation
                  initialService [] H1 H2)).
Defined.

(** The accumulators after a message with the turn-complete signal. *)
Lemma turnComplete_empties_accumulators
  (m : Wire.LiveServerMessage) (env : PlaybackEnv) (s : GeminiService)
  (d0 : option string) :
  flag Wire.turnComplete m = true -> audioDataOf m = normal d0 ->
  (currentInputTranscription (finalState (handleSessionMessage m env s)) = "" \/
   currentInputTranscription (finalState (handleSessionMessage m env s)) = undefined) /\
  currentOutputTranscription (finalState (handleSessionMessage m env s)) = "".
Proof.
  intros Htc Hd. unfold handleSessionMessage, onAudioAndTurnComplete. rewrite Hd.
  rewrite !andThen_finalState.
  match goal with
  | |- context [onTurnComplete m ?s3] =>
      destruct (onTurnComplete_finalizes m s3 Htc) as (_ & _ & _ & Hci & Hco & _)
  end.
  split; [|assumption]. destruct Hci as [Hci | [_ Hci]]; [left | right]; exact Hci.
Qed.

(** X4.  After a message with the turn-complete signal has been handled,
    whatever came before it, no turn with content is left in progress in the
    shown transcript: a turn still shown as in progress has empty text, or is
    a user turn without text (its latest transcription carried none). *)
Theorem no_content_in_progress_after_turnComplete
  (earlier : list (Wire.LiveServerMessage * PlaybackEnv))
  (m : Wire.LiveServerMessage) (env : PlaybackEnv)
  (s : GeminiService) (prev : list TranscriptTurn) (d0 : option string) :
  atMostOneDraft prev -> mirrors s prev ->
  flag Wire.turnComplete m = true -> audioDataOf m = normal d0 ->
  Forall (fun d => isFinal d = false ->
                   text d = "" \/ author d = user /\ text d = undefined)
    (shownAfter (handleSessionMessages (earlier ++ [(m, env)]) s) prev).
Proof.
  intros Hone Hm Htc Hd. apply Forall_forall. intros d Hin Hfin.
  destruct (handleSessionMessages_keepsInStep (earlier ++ [(m, env)]) s prev Hone Hm)
    as (_ & Hmir).
  specialize (Hmir d Hin Hfin).
  assert (Hacc :
    (currentInputTranscription
       (finalState (handleSessionMessages (earlier ++ [(m, env)]) s)) = "" \/
     currentInputTranscription
       (finalState (handleSessionMessages (earlier ++ [(m, env)]) s)) = undefined) /\
    currentOutputTranscription
      (finalState (handleSessionMessages (earlier ++ [(m, env)]) s)) = "").
  { rewrite handleSessionMessages_app, andThen_finalState. simpl.
    rewrite andThen_finalState. simpl.
    apply (turnComplete_empties_accumulators m env _ d0 Htc Hd). }
  destruct Hacc as (Hi & Ho). rewrite Ho in Hmir.
  destruct (author d); destruct Hmir as (Ht & _).
  - destruct Hi as [Hi | Hi]; rewrite Hi in Ht; [left | right; split]; auto.
  - left. exact Ht.
Qed.

Lemma no_content_in_progress_after_turnComplete_witness :
  atMostOneDraft [] /\ mirrors initialService [] /\
  flag Wire.turnComplete turnCompleteMessage = true /\
  audioDataOf turnCompleteMessage = normal None /\
  Forall (fun d => isFinal d = false ->
                   text d = "" \/ author d = user /\ text d = undefined)
    (shownAfter
       (handleSessionMessages
          (firstn 5 exampleConversation ++ [(turnCompleteMessage, playbackAt 0 0 0)])
          initialService) []).
Proof.
  assert (H1 : atMostOneDraft []) by (intros a; simpl; lia).
  assert (H2 : mirrors initialService []) by (intros d []).
  split; [exact H1|]. split; [exact H2|].
  split; [reflexivity|]. split; [reflexivity|].
  exact (no_content_in_progress_after_turnComplete (firstn 5 exampleConversation)
           turnCompleteMessage (playbackAt 0 0 0) initialService [] None
           H1 H2 eq_refl eq_refl).
Defined.

(** A user turn in progress without text outlives the turn-complete signal:
    [undefined] is falsy, so the block neither finalizes nor clears it. *)
Example textless_user_draft_outlives_turnComplete :
  shownAfter
    (handleSessionMessages
       [(textlessUserPartial, playbackAt 0 0 0); (turnCompleteMessage, playbackAt 0 0 0)]
       initialService) []
  = [ {| author := user; text := undefined; isFinal := false; grounding := None |} ].
Proof. reflexivity. Qed.

(** ** The status callback of the App *)

Lemma handleStatusUpdate_status (st : AppStatus) (m : option string) (a : App) :
  status (fst (handleStatusUpdate st m a)) = st /\
  snd (handleStatusUpdate st m a)
  = if negb (isProcessing (statusRef a)) && isProcessing st
    then [playProcessing] else [].
Proof.
  unfold handleStatusUpdate. destruct st, (statusRef a); simpl; auto.
Qed.

Lemma last_cons {A : Type} (x d : A) (l : list A) :
  last (x :: l) d = last l x.
Proof.
  revert x d. induction l as [|y l IH]; intros x d; [reflexivity|].
  change (last (x :: y :: l) d) with (last (y :: l) d).
  rewrite (IH y d), (IH y x). reflexivity.
Qed.

(** X5.  When the component renders after each status update, the thinking
    cue is played exactly once for every update that takes the status into
    PROCESSING from another status, and for no other update; the status shown
    at the end is the last one reported. *)
Theorem thinking_cue_on_crossings
  (updates : list (AppStatus * option string)) (a : App) :
  statusRef a = status a ->
  length (snd (statusUpdatesRendered updates a))
    = crossingsIntoProcessing (status a) (map fst updates) /\
  status (fst (statusUpdatesRendered updates a))
    = last (map fst updates) (status a) /\
  statusRef (fst (statusUpdatesRendered updates a))
    = status (fst (statusUpdatesRendered updates a)).
Proof.
  revert a. induction updates as [|[st m] rest IH]; intros a Href.
  - simpl. auto.
  - cbn [statusUpdatesRendered map fst].
    destruct (handleStatusUpdate_status st m a) as (Hst & Hcue).
    destruct (handleStatusUpdate st m a) as [a1 c1] eqn:E.
    cbn [fst snd] in Hst, Hcue.
    assert (Hr : statusRef (render a1) = status (render a1)) by reflexivity.
    specialize (IH (render a1) Hr).
    destruct (statusUpdatesRendered rest (render a1)) as [a2 c2].
    cbn [fst snd crossingsIntoProcessing] in *.
    destruct IH as (Hlen & Hlast & Href2).
    change (status (render a1)) with (status a1) in Hlen, Hlast.
    rewrite length_app, Hlen, Hcue, Href, Hst.
    split; [|split; [|exact Href2]].
    + destruct (negb (isProcessing (status a)) && isProcessing st); reflexivity.
    + rewrite Hlast, Hst. symmetry. apply last_cons.
Qed.

Lemma thinking_cue_on_crossings_witness :
  statusRef (appIn LISTENING []) = status (appIn LISTENING []) /\
  length (snd (statusUpdatesRendered
                 [(PROCESSING, None); (PROCESSING, None); (SPEAKING, None);
                  (LISTENING, None); (PROCESSING, None)]
                 (appIn LISTENING []))) = 2 /\
  status (fst (statusUpdatesRendered
                 [(PROCESSING, None); (PROCESSING, None); (SPEAKING, None);
                  (LISTENING, None); (PROCESSING, None)]
                 (appIn LISTENING []))) = PROCESSING.
Proof.
  split; [reflexivity|].
  destruct (thinking_cue_on_crossings
              [(PROCESSING, None); (PROCESSING, None); (SPEAKING, None);
               (LISTENING, None); (PROCESSING, None)]
              (appIn LISTENING []) eq_refl) as (H1 & H2 & _).
  split; [exact H1 | exact H2].
Defined.

(** ** The statuses the service reports *)

Lemma statusUpdates_playIfPresent (d : option string) (env : PlaybackEnv)
  (s : GeminiService) :
  statusUpdates
    (trace (match d with
            | Some b => when (Js.truthy b) (playStreamedAudio b env)
            | None => skip
            end s)) = [].
Proof. destruct (playIfPresent_frame d env s) as (_ & H & _). exact H. Qed.

Lemma statusUpdates_onTurnComplete (m : Wire.LiveServerMessage) (s : GeminiService) :
  statusUpdates (trace (onTurnComplete m s))
  = if flag Wire.turnComplete m then [(LISTENING, None)] else [].
Proof.
  rewrite onTurnComplete_eq. destruct (flag Wire.turnComplete m); [|reflexivity].
  cbv zeta.
  destruct (Js.truthy (currentInputTranscription s)),
           (Js.truthy (currentOutputTranscription s)); reflexivity.
Qed.

Lemma handleSessionMessage_statuses
  (m : Wire.LiveServerMessage) (env : PlaybackEnv) (s : GeminiService) :
  statusUpdates (trace (handleSessionMessage m env s)) = statusesOf m.
Proof.
  unfold handleSessionMessage, statusesOf, onAudioAndTurnComplete.
  rewrite !andThen_trace, !statusUpdates_app.
  rewrite onInterrupted_eq, onInputTranscription_eq, onOutputTranscription_eq.
  assert (Hcut : statusUpdates
                   (trace (if flag Wire.interrupted m
                           then
                             let s0 := set_nextStartTime 0%Q (set_outputSources [] s) in
                             if Js.truthy (currentOutputTranscription s)
                             then
                               (set_currentGrounding []
                                  (set_currentOutputTranscription "" s0),
                                map outputStop (outputSources s) ++
                                [onTranscriptUpdate
                                   {| author := bot;
                                      text := currentOutputTranscription s;
                                      isFinal := true;
                                      grounding := Some (currentGrounding s) |}])
                             else (s0, map outputStop (outputSources s))
                           else (s, []))) = []).
  { destruct (flag Wire.interrupted m); [|reflexivity]. cbv zeta.
    destruct (Js.truthy (currentOutputTranscription s)); simpl;
      rewrite ?statusUpdates_app, statusUpdates_outputStop; reflexivity. }
  rewrite Hcut. simpl "++".
  f_equal; [destruct (field Wire.inputTranscription m); reflexivity|].
  f_equal; [destruct (field Wire.outputTranscription m); reflexivity|].
  destruct (audioDataOf m) as [d|]; [|reflexivity].
  rewrite andThen_trace, statusUpdates_app, statusUpdates_playIfPresent.
  apply statusUpdates_onTurnComplete.
Qed.

(** X8.  The statuses reported for a sequence of messages depend only on
    the fields the messages carry, in order: PROCESSING for a user
    transcription, SPEAKING for a bot transcription, LISTENING for the
    turn-complete signal when the audio field could be read.  They depend
    neither on the state of the service nor on the audio environment, and an
    interruption by itself reports no status. *)
Theorem statuses_follow_the_messages
  (messages : list (Wire.LiveServerMessage * PlaybackEnv)) (s : GeminiService) :
  statusUpdates (trace (handleSessionMessages messages s))
    = flat_map (fun me => statusesOf (fst me)) messages /\
  (forall m env s',
     field Wire.inputTranscription m = None ->
     field Wire.outputTranscription m = None ->
     flag Wire.turnComplete m = false ->
     statusUpdates (trace (handleSessionMessage m env s')) = []).
Proof.
  split.
  - revert s. induction messages as [|[m env] rest IH]; intros s; simpl; [reflexivity|].
    rewrite andThen_trace, statusUpdates_app, handleSessionMessage_statuses, IH.
    reflexivity.
  - intros m env s' Hi Ho Htc. rewrite handleSessionMessage_statuses.
    unfold statusesOf. rewrite Hi, Ho, Htc. destruct (audioDataOf m); reflexivity.
Qed.

Lemma statuses_follow_the_messages_witness :
  statusUpdates (trace (handleSessionMessages exampleConversation conversingService))
  = [(PROCESSING, None); (PROCESSING, None); (SPEAKING, None); (SPEAKING, None);
     (LISTENING, None); (PROCESSING, None)].
Proof.
  rewrite (proj1 (statuses_follow_the_messages exampleConversation conversingService)).
  reflexivity.
Defined.

Lemma statusesOf_reported (m : Wire.LiveServerMessage) :
  Forall reportedByService (statusesOf m).
Proof.
  unfold statusesOf.
  destruct (field Wire.inputTranscription m), (field Wire.outputTranscription m),
    (audioDataOf m) as [d|]; try destruct (flag Wire.turnComplete m);
    repeat constructor.
Qed.

Lemma userMessage_known (e : ErrorEvent) :
  In (userMessage e) serviceErrorMessages /\ Js.truthy (userMessage e) = true.
Proof.
  rewrite userMessage_cascade. cbv zeta. unfold serviceErrorMessages.
  destruct (Js.includes _ "api key not valid"); [simpl; auto 10|].
  destruct (Js.includes _ "network" || Js.includes _ "failed to fetch");
    [simpl; auto 10|].
  destruct (Js.includes _ "permission denied"); [simpl; auto 10|].
  destruct (Js.includes _ "quota"); simpl; auto 10.
Qed.

Lemma handleSessionOpen_statuses (r : MediaResult) (s : GeminiService) :
  statusUpdates (trace (handleSessionOpen r s)) =
    (LISTENING, None) ::
    match r with
    | granted _ _ _ => []
    | denied => [(ERROR, Some microphoneDenied)]
    end.
Proof.
  unfold handleSessionOpen, handleSessionOpen_begin.
  rewrite !andThen_trace. simpl. f_equal.
  destruct r as [stream sourceNode processorNode|]; simpl.
  - destruct s as [se sp ic oc ms pr so os nst cin cout cg]. destruct ic; reflexivity.
  - rewrite andThen_trace. simpl. rewrite stopSession_trace. simpl.
    rewrite statusUpdates_releasesOf. reflexivity.
Qed.

Lemma react_statuses (i : ServiceInput) (s : GeminiService) :
  Forall reportedByService (statusUpdates (trace (react i s))).
Proof.
  destruct i as [r|m env|e|src|]; simpl.
  - rewrite handleSessionOpen_statuses. constructor; [reflexivity|].
    destruct r; constructor; [|constructor].
    exists microphoneDenied. simpl. auto.
  - rewrite handleSessionMessage_statuses. apply statusesOf_reported.
  - destruct (handleSessionError_reports_error e s) as (-> & _).
    constructor; [|constructor].
    exists (userMessage e). split; [reflexivity | apply userMessage_known].
  - constructor.
  - rewrite stopSession_trace. simpl. rewrite statusUpdates_releasesOf. constructor.
Qed.

Lemma reactAll_statuses (inputs : list ServiceInput) (s : GeminiService) :
  Forall reportedByService (statusUpdates (trace (reactAll inputs s))).
Proof.
  revert s. induction inputs as [|i rest IH]; intros s; simpl; [constructor|].
  rewrite andThen_trace, statusUpdates_app. apply Forall_app.
  split; [apply react_statuses | apply IH].
Qed.

(** What the App shows after the callbacks of one run were delivered: the
    last status reported and its message. *)
Lemma deliver_shows_last (t : list Event) (a : App) :
  Forall reportedByService (statusUpdates t) ->
  (status (fst (deliver t a)), errorMessage (fst (deliver t a)))
  = last (statusUpdates t) (status a, errorMessage a).
Proof.
  revert a. induction t as [|e t IH]; intros a H; [reflexivity|].
  destruct e; try (simpl in *; apply IH; exact H).
  - cbn [deliver statusUpdates] in *. inversion H as [|u us Hu Hus]; subst.
    destruct (handleStatusUpdate status0 msg a) as [a1 c1] eqn:E.
    specialize (IH a1 Hus). destruct (deliver t a1) as [a2 c2].
    cbn [fst] in *. rewrite IH, last_cons. f_equal.
    unfold handleStatusUpdate in E. unfold reportedByService in Hu. simpl in Hu.
    destruct status0; try contradiction; inversion E; subst; simpl;
      try reflexivity.
    destruct Hu as (m & -> & _ & Ht). simpl. rewrite Ht. reflexivity.
  - exact (IH (App_handleTranscriptUpdate turn a) H).
Qed.

(** X6.  Across every run of a service (open, messages, errors, ended
    sources, stop, in any order and from any state) the statuses reported are
    LISTENING, PROCESSING or SPEAKING without a message, or ERROR with one of
    the six non-empty messages of the service; IDLE and GREETING are never
    reported.  Delivered to the App, they leave it showing the last status
    reported together with that very message, so the default error text of
    the App never replaces a message of the service. *)
Theorem service_statuses_and_what_the_App_shows
  (inputs : list ServiceInput) (s : GeminiService) (a : App) :
  Forall reportedByService (statusUpdates (trace (reactAll inputs s))) /\
  (status (fst (deliver (trace (reactAll inputs s)) a)),
   errorMessage (fst (deliver (trace (reactAll inputs s)) a)))
  = last (statusUpdates (trace (reactAll inputs s))) (status a, errorMessage a).
Proof.
  split; [apply reactAll_statuses|].
  apply deliver_shows_last, reactAll_statuses.
Qed.

Lemma service_statuses_and_what_the_App_shows_witness :
  statusUpdates (trace (reactAll exampleRun connectingService))
  = [(LISTENING, None); (PROCESSING, None); (ERROR, Some networkError)] /\
  (status (fst (deliver (trace (reactAll exampleRun connectingService))
                  (appIn GREETING []))),
   errorMessage (fst (deliver (trace (reactAll exampleRun connectingService))
                        (appIn GREETING []))))
  = (ERROR, Some networkError).
Proof.
  split; [reflexivity|].
  rewrite (proj2 (service_statuses_and_what_the_App_shows exampleRun connectingService
                    (appIn GREETING []))).
  reflexivity.
Defined.

(** ** Only started sources are stopped *)

Lemma startedAfter_app (started : list SourceId) (t1 t2 : list Event) :
  startedAfter started (t1 ++ t2) = startedAfter (startedAfter started t1) t2.
Proof.
  unfold startedAfter. rewrite outputStarts_app, map_app, rev_app_distr, app_assoc.
  reflexivity.
Qed.

Lemma stopsOnlyStarted_app (started : list SourceId) (t1 t2 : list Event) :
  stopsOnlyStarted started (t1 ++ t2) <->
  stopsOnlyStarted started t1 /\ stopsOnlyStarted (startedAfter started t1) t2.
Proof.
  revert started. induction t1 as [|e t1 IH]; intros started.
  - simpl. unfold startedAfter. simpl. tauto.
  - destruct e; simpl; try apply IH.
    + rewrite IH. unfold startedAfter. simpl. tauto.
    + rewrite IH. unfold startedAfter. simpl.
      rewrite <- app_assoc. simpl. tauto.
Qed.

(** A trace that starts nothing is fine when what it stops was started. *)
Lemma stopsOnlyStarted_noStarts (started : list SourceId) (t : list Event) :
  outputStarts t = [] -> incl (outputStops t) started ->
  stopsOnlyStarted started t.
Proof.
  induction t as [|e t IH]; simpl; [auto|].
  destruct e; simpl; auto; try discriminate.
  intros Hs Hi. split; [apply Hi; left; reflexivity|].
  apply IH; [exact Hs|]. intros x Hx. apply Hi. right. exact Hx.
Qed.

(** A trace that stops nothing is fine. *)
Lemma stopsOnlyStarted_noStops (started : list SourceId) (t : list Event) :
  outputStops t = [] -> stopsOnlyStarted started t.
Proof.
  revert started. induction t as [|e t IH]; intros started; simpl; [auto|].
  destruct e; simpl; auto; discriminate.
Qed.

Lemma startedAfter_noStarts (started : list SourceId) (t : list Event) :
  outputStarts t = [] -> startedAfter started t = started.
Proof. intros H. unfold startedAfter. rewrite H. reflexivity. Qed.

Lemma andThen_stopsStartedOnly (c1 c2 : Cmd) :
  stopsStartedOnly c1 -> stopsStartedOnly c2 -> stopsStartedOnly (c1 ;; c2).
Proof.
  intros H1 H2 started s Hs.
  rewrite andThen_trace, andThen_finalState, startedAfter_app.
  destruct (H1 started s Hs) as [Ht1 Hs1].
  destruct (H2 _ _ Hs1) as [Ht2 Hs2].
  split; [apply stopsOnlyStarted_app; split; assumption | exact Hs2].
Qed.

(** A command that starts nothing, stops only sources of the live set and
    does not add to the live set. *)
Lemma quiet_stopsStartedOnly (c : Cmd) :
  (forall s, outputStarts (trace (c s)) = [] /\
             incl (outputStops (trace (c s))) (outputSources s) /\
             incl (outputSources (finalState (c s))) (outputSources s)) ->
  stopsStartedOnly c.
Proof.
  intros H started s Hs. destruct (H s) as (Hst & Hsp & Hos).
  rewrite (startedAfter_noStarts _ _ Hst). split.
  - apply stopsOnlyStarted_noStarts; [exact Hst|].
    intros x Hx. apply Hs, Hsp, Hx.
  - intros x Hx. apply Hs, Hos, Hx.
Qed.

Lemma releasesOf_playback (s : GeminiService) :
  outputStarts (releasesOf s) = [] /\ outputStops (releasesOf s) = outputSources s.
Proof.
  unfold releasesOf.
  resource_cases s;
    rewrite outputStarts_outputStop, outputStops_outputStop; split; reflexivity.
Qed.

Lemma stopSession_outputSources (s : GeminiService) :
  outputSources (finalState (stopSession s)) = [].
Proof.
  destruct s as [se sp ic oc ms pr so os nst cin cout cg].
  destruct se, ms, so, pr, ic as [[[]]|], oc as [[[]]|]; reflexivity.
Qed.

Lemma stopSession_stopsStartedOnly : stopsStartedOnly stopSession.
Proof.
  apply quiet_stopsStartedOnly. intros s.
  rewrite stopSession_trace, stopSession_outputSources. simpl.
  destruct (releasesOf_playback s) as (-> & ->).
  repeat split; try apply incl_refl. intros x [].
Qed.

Lemma onInterrupted_stopsStartedOnly (m : Wire.LiveServerMessage) :
  stopsStartedOnly (onInterrupted m).
Proof.
  apply quiet_stopsStartedOnly. intros s. rewrite onInterrupted_eq.
  destruct (flag Wire.interrupted m); cbv zeta;
    [|simpl; repeat split; try apply incl_refl; intros x []].
  destruct (Js.truthy (currentOutputTranscription s)); simpl;
    rewrite ?outputStarts_app, ?outputStops_app,
      outputStarts_outputStop, outputStops_outputStop; simpl;
    rewrite ?app_nil_r; repeat split; try apply incl_refl; intros x [].
Qed.

Lemma transcription_stopsStartedOnly (m : Wire.LiveServerMessage) :
  stopsStartedOnly (onInputTranscription m) /\
  stopsStartedOnly (onOutputTranscription m).
Proof.
  split; apply quiet_stopsStartedOnly; intros s;
    rewrite ?onInputTranscription_eq, ?onOutputTranscription_eq.
  - destruct (field Wire.inputTranscription m); simpl;
      repeat split; try apply incl_refl; intros x [].
  - destruct (field Wire.outputTranscription m); simpl;
      repeat split; try apply incl_refl; intros x [].
Qed.

Lemma setAdd_incl (x : nat) (l started : list nat) :
  incl l started -> incl (Js.setAdd x l) (x :: started).
Proof.
  intros H y Hy. unfold Js.setAdd in Hy.
  destruct (existsb (Nat.eqb x) l).
  - right. apply H, Hy.
  - apply in_app_iff in Hy. destruct Hy as [Hy|[<-|[]]]; [right; apply H, Hy | left; reflexivity].
Qed.

Lemma onAudioAndTurnComplete_stopsStartedOnly
  (m : Wire.LiveServerMessage) (env : PlaybackEnv) :
  stopsStartedOnly (onAudioAndTurnComplete m env).
Proof.
  intros started s Hs.
  pose proof (onAudioAndTurnComplete_playback m env s) as Hp. cbv zeta in Hp.
  destruct Hp as (Hstop & Hp).
  split; [apply stopsOnlyStarted_noStops, Hstop|].
  unfold startedAfter.
  destruct (playsAudio m && hasOutputContext s); destruct Hp as (-> & _ & ->); simpl.
  - apply setAdd_incl, Hs.
  - exact Hs.
Qed.

Lemma handleSessionMessage_stopsStartedOnly
  (m : Wire.LiveServerMessage) (env : PlaybackEnv) :
  stopsStartedOnly (handleSessionMessage m env).
Proof.
  unfold handleSessionMessage.
  repeat apply andThen_stopsStartedOnly;
    auto using onInterrupted_stopsStartedOnly,
      onAudioAndTurnComplete_stopsStartedOnly;
    apply transcription_stopsStartedOnly.
Qed.

Lemma handleSessionOpen_stopsStartedOnly (r : MediaResult) :
  stopsStartedOnly (handleSessionOpen r).
Proof.
  unfold handleSessionOpen. apply andThen_stopsStartedOnly.
  - apply quiet_stopsStartedOnly. intros s. simpl.
    repeat split; try apply incl_refl; intros x [].
  - destruct r as [stream sourceNode processorNode|]; simpl.
    + apply quiet_stopsStartedOnly. intros s.
      destruct s as [se sp ic oc ms pr so os nst cin cout cg].
      destruct ic; simpl; repeat split; try apply incl_refl; intros x [].
    + apply andThen_stopsStartedOnly; [|apply stopSession_stopsStartedOnly].
      apply quiet_stopsStartedOnly. intros s. simpl.
      repeat split; try apply incl_refl; intros x [].
Qed.

Lemma react_stopsStartedOnly (i : ServiceInput) : stopsStartedOnly (react i).
Proof.
  destruct i as [r|m env|e|src|]; simpl.
  - apply handleSessionOpen_stopsStartedOnly.
  - apply handleSessionMessage_stopsStartedOnly.
  - unfold handleSessionError.
    apply andThen_stopsStartedOnly;
      [|apply andThen_stopsStartedOnly; [|apply stopSession_stopsStartedOnly]];
      apply quiet_stopsStartedOnly; intros s; simpl;
      repeat split; try apply incl_refl; intros x [].
  - apply quiet_stopsStartedOnly. intros s. simpl.
    repeat split; try (intros x []).
    intros x Hx. apply filter_In in Hx. apply Hx.
  - apply stopSession_stopsStartedOnly.
Qed.

(** X7.  Across every run of a service, whatever the order of open,
    messages, errors, ended sources and stops: a source is only ever stopped
    after it has been started (or was live when the run began), so [stop] is
    never called on a source that was not started; and the live set holds
    started sources only. *)
Theorem only_started_sources_are_stopped
  (inputs : list ServiceInput) (started : list SourceId) (s : GeminiService) :
  incl (outputSources s) started ->
  stopsOnlyStarted started (trace (reactAll inputs s)) /\
  incl (outputSources (finalState (reactAll inputs s)))
       (startedAfter started (trace (reactAll inputs s))).
Proof.
  revert started s. induction inputs as [|i rest IH]; intros started s Hs.
  - simpl. unfold startedAfter. simpl. auto.
  - simpl reactAll.
    assert (Hrest : stopsStartedOnly (reactAll rest)).
    { intros st s' Hs'. apply IH, Hs'. }
    exact (andThen_stopsStartedOnly _ _ (react_stopsStartedOnly i) Hrest started s Hs).
Qed.

Lemma only_started_sources_are_stopped_witness :
  incl (outputSources connectingService) [] /\
  stopsOnlyStarted [] (trace (reactAll exampleRun connectingService)) /\
  outputStarts (trace (reactAll exampleRun connectingService)) = [(7, 1%Q); (8, 4%Q)] /\
  outputStops (trace (reactAll exampleRun connectingService)) = [8].
Proof.
  assert (H : incl (outputSources connectingService) []) by (intros x []).
  split; [exact H|]. split; [|split; reflexivity].
  exact (proj1 (only_started_sources_are_stopped exampleRun [] connectingService H)).
Defined.

(** ** Scheduled chunks do not overlap *)

Lemma handleSessionMessage_starts
  (m : Wire.LiveServerMessage) (env : PlaybackEnv) (s : GeminiService) :
  advancing (m, env) ->
  Forall (fun st => (nextStartTime s <= snd st)%Q)
    (outputStarts (trace (handleSessionMessage m env s))).
Proof.
  intros [Hi _]. simpl in Hi. unfold handleSessionMessage.
  rewrite !andThen_trace, !outputStarts_app, onInterrupted_eq, Hi.
  simpl finalState. simpl trace. simpl outputStarts.
  destruct (transcription_blocks_frame m s) as (-> & _ & Hc & _ & Hn & _ & _).
  cbv zeta in Hc, Hn. rewrite Hc. simpl.
  tail_playback m env Hp.
  destruct (playsAudio m && hasOutputContext _); destruct Hp as (-> & _ & _);
    [|constructor].
  constructor; [|constructor]. simpl. rewrite Hn. apply Q.le_max_l.
Qed.

Lemma handleSessionMessages_starts
  (messages : list (Wire.LiveServerMessage * PlaybackEnv)) (s : GeminiService) :
  Forall advancing messages ->
  Forall (fun st => (nextStartTime s <= snd st)%Q)
    (outputStarts (trace (handleSessionMessages messages s))).
Proof.
  intros H. revert s. induction H as [|[m env] rest Hm Hrest IH]; intros s; simpl.
  - constructor.
  - rewrite andThen_trace, outputStarts_app. apply Forall_app. split.
    + apply handleSessionMessage_starts, Hm.
    + eapply Forall_impl; [|apply IH].
      intros st Hst. simpl in Hst.
      eapply Qle_trans; [apply (handleSessionMessage_watermark m env s Hm) | exact Hst].
Qed.

(** X9.  Chunks do not overlap: once a chunk has been scheduled, every chunk
    scheduled by later messages, as long as none of them carries an
    interruption, starts no earlier than the scheduled end of that chunk
    (its start time plus its duration). *)
Theorem later_chunks_start_after_the_end
  (b : string) (env : PlaybackEnv) (s : GeminiService)
  (later : list (Wire.LiveServerMessage * PlaybackEnv)) :
  hasOutputContext s = true ->
  Forall advancing later ->
  let first := playStreamedAudio b env s in
  exists start,
    outputStarts (trace first) = [(bufferSource env, start)] /\
    Forall (fun st => (start + duration (audioBuffer env) <= snd st)%Q)
      (outputStarts (trace (handleSessionMessages later (finalState first)))).
Proof.
  intros Hctx Hlater first. subst first.
  destruct (playStreamedAudio_watermark b env s Hctx) as (Hn & Hs).
  exists (Qmax (nextStartTime s) (currentTime env)). split; [exact Hs|].
  rewrite <- Hn. apply handleSessionMessages_starts, Hlater.
Qed.

Lemma later_chunks_start_after_the_end_witness :
  hasOutputContext connectingService = true /\
  Forall advancing exampleLater /\
  outputStarts (trace (playStreamedAudio "AAAA" (playbackAt 1 4 9) connectingService))
    = [(9, 1%Q)] /\
  outputStarts
    (trace (handleSessionMessages exampleLater
              (finalState (playStreamedAudio "AAAA" (playbackAt 1 4 9)
                             connectingService))))
    = [(10, 5%Q); (11, 20%Q)] /\
  (exists start,
     outputStarts (trace (playStreamedAudio "AAAA" (playbackAt 1 4 9) connectingService))
       = [(bufferSource (playbackAt 1 4 9), start)] /\
     Forall (fun st => Qle (start + duration (audioBuffer (playbackAt 1 4 9))) (snd st))
       (outputStarts
          (trace (handleSessionMessages exampleLater
                    (finalState (playStreamedAudio "AAAA" (playbackAt 1 4 9)
                                   connectingService)))))).
Proof.
  assert (H : Forall advancing exampleLater).
  { repeat constructor; simpl; discriminate. }
  split; [reflexivity|]. split; [exact H|]. split; [reflexivity|]. split; [reflexivity|].
  exact (later_chunks_start_after_the_end "AAAA" (playbackAt 1 4 9) connectingService
           exampleLater eq_refl H).
Defined.

(** ** Teardown *)

Lemma lift_eq (c : Cmd) (w : World) :
  finalState (lift c w)
  = {| service := finalState (c (service w)); connectPromise := connectPromise w |} /\
  trace (lift c w) = trace (c (service w)).
Proof. unfold lift. destruct (c (service w)); split; reflexivity. Qed.

Lemma stopSession_tornDown (s : GeminiService) :
  tornDown (finalState (stopSession s)) /\
  sameConversationState s (finalState (stopSession s)).
Proof.
  destruct s as [se sp ic oc ms pr so os nst cin cout cg].
  unfold tornDown, sameConversationState.
  destruct se, ms, so, pr, ic as [[[]]|], oc as [[[]]|]; simpl;
    repeat split; try reflexivity;
    intros ctx H; inversion H; reflexivity.
Qed.

(** X11.  The three ways a session is torn down ([stopSession], a session
    error, a denied microphone) all end with nothing left to release: every
    handle field is null, the live set is empty and the audio contexts are
    closed.  None of them touches the watermark, the accumulators or the
    grounding buffer. *)
Theorem teardown_releases_everything (e : ErrorEvent) (s : GeminiService) :
  (tornDown (finalState (stopSession s)) /\
   sameConversationState s (finalState (stopSession s))) /\
  (tornDown (finalState (handleSessionError e s)) /\
   sameConversationState s (finalState (handleSessionError e s))) /\
  (tornDown (finalState (handleSessionOpen denied s)) /\
   sameConversationState s (finalState (handleSessionOpen denied s))).
Proof.
  split; [apply stopSession_tornDown|]. split.
  - destruct (handleSessionError_reports_error e s) as (_ & ->).
    apply stopSession_tornDown.
  - unfold handleSessionOpen, handleSessionOpen_begin, handleSessionOpen_resume.
    rewrite !andThen_finalState. simpl. apply stopSession_tornDown.
Qed.

(** X10.  A stop while the connection is still being established does not
    cancel it.  Frames captured after the stop are dropped, but the promise
    stays pending with the frames registered before the stop; if it is
    fulfilled later, those frames are sent, the session handle is stored in
    the stopped service, and only a further [stopSession] closes it. *)
Theorem stop_does_not_cancel_pending_connect
  (w : World) (p h : Handle) (queued blobs : list Blob) :
  sessionPromise (service w) = Some p ->
  connectPromise w = pending queued ->
  let halted := finalState (lift stopSession w) in
  let resumed := connectFulfilled h halted in
  captureFrames blobs halted = (halted, []) /\
  connectPromise halted = pending queued /\
  trace resumed = map (sendRealtimeInput h) queued /\
  session (service (finalState resumed)) = Some h /\
  sessionPromise (service (finalState resumed)) = None /\
  In (sessionClose h) (trace (lift stopSession (finalState resumed))).
Proof.
  intros Hp Hq halted resumed.
  destruct (lift_eq stopSession w) as (Hh & _). fold halted in Hh.
  destruct (stopSession_tornDown (service w)) as ((_ & Hsp & _) & _).
  assert (Hhp : sessionPromise (service halted) = None) by (rewrite Hh; exact Hsp).
  assert (Hhq : connectPromise halted = pending queued) by (rewrite Hh; exact Hq).
  split; [apply captureFrames_stopped, Hhp|]. split; [exact Hhq|].
  assert (Hr : resumed =
               ({| service := set_session (Some h) (service halted);
                   connectPromise := fulfilled h |},
                map (sendRealtimeInput h) queued)).
  { subst resumed. unfold connectFulfilled. rewrite Hhq. reflexivity. }
  rewrite Hr. simpl. repeat split; try reflexivity.
  - exact Hhp.
  - destruct (lift_eq stopSession
                {| service := set_session (Some h) (service halted);
                   connectPromise := fulfilled h |}) as (_ & ->).
    simpl. rewrite stopSession_trace. right. unfold releasesOf. simpl. left. reflexivity.
Qed.

Lemma stop_does_not_cancel_pending_connect_witness :
  sessionPromise (service capturingWorld) = Some 2 /\
  connectPromise capturingWorld = pending [41; 42] /\
  trace (captureFrames [43] (finalState (lift stopSession capturingWorld))) = [] /\
  trace (connectFulfilled 1 (finalState (lift stopSession capturingWorld)))
    = [sendRealtimeInput 1 41; sendRealtimeInput 1 42] /\
  session (service (finalState
                      (connectFulfilled 1 (finalState (lift stopSession capturingWorld)))))
    = Some 1.
Proof.
  split; [reflexivity|]. split; [reflexivity|].
  destruct (stop_does_not_cancel_pending_connect capturingWorld 2 1 [41; 42] [43]
              eq_refl eq_refl) as (H1 & _ & H3 & H4 & _).
  split; [rewrite H1; reflexivity|]. split; [exact H3 | exact H4].
Defined.

(** ** A chunk is never scheduled in the past *)

(** X12.  Whatever the message and the state of the service, handling one
    message starts at most one source, the one made for its chunk, and
    starts it no earlier than the current time of the output audio clock. *)
Theorem chunk_never_starts_in_the_past
  (m : Wire.LiveServerMessage) (env : PlaybackEnv) (s : GeminiService) :
  length (outputStarts (trace (handleSessionMessage m env s))) <= 1 /\
  Forall (fun st => fst st = bufferSource env /\ (currentTime env <= snd st)%Q)
    (outputStarts (trace (handleSessionMessage m env s))) /\
  (playsAudio m && hasOutputContext s = false ->
   outputStarts (trace (handleSessionMessage m env s)) = []).
Proof.
  unfold handleSessionMessage.
  rewrite !andThen_trace, !outputStarts_app.
  assert (Hcut : outputStarts (trace (onInterrupted m s)) = [] /\
                 outputAudioContext (finalState (onInterrupted m s))
                 = outputAudioContext s).
  { rewrite onInterrupted_eq. destruct (flag Wire.interrupted m); [|split; reflexivity].
    cbv zeta. destruct (Js.truthy (currentOutputTranscription s)); simpl;
      rewrite ?outputStarts_app, outputStarts_outputStop; split; reflexivity. }
  destruct Hcut as (-> & Hctx).
  destruct (transcription_blocks_frame m (finalState (onInterrupted m s)))
    as (-> & _ & Hc & _ & _ & Hx & _).
  cbv zeta in Hc, Hx. rewrite Hc. simpl.
  tail_playback m env Hp.
  assert (Hsame : hasOutputContext
                    (finalState
                       (onOutputTranscription m
                          (finalState
                             (onInputTranscription m (finalState (onInterrupted m s))))))
                  = hasOutputContext s).
  { unfold hasOutputContext. rewrite Hx, Hctx. reflexivity. }
  rewrite Hsame in Hp.
  destruct (playsAudio m && hasOutputContext s); destruct Hp as (-> & _ & _); simpl.
  - split; [lia|]. split; [|discriminate].
    constructor; [|constructor]. split; [reflexivity | apply Q.le_max_r].
  - split; [lia|]. split; [constructor | reflexivity].
Qed.

Lemma chunk_never_starts_in_the_past_witness :
  outputStarts
    (trace (handleSessionMessage (interruptedWithAudio "AAAA") (playbackAt 5 2 9)
              conversingService)) = [(9, Qmax 0 5)] /\
  Forall (fun st => fst st = 9 /\ Qle 5 (snd st))
    (outputStarts
       (trace (handleSessionMessage (interruptedWithAudio "AAAA") (playbackAt 5 2 9)
                 conversingService))).
Proof.
  split; [reflexivity|].
  exact (proj1 (proj2 (chunk_never_starts_in_the_past (interruptedWithAudio "AAAA")
                         (playbackAt 5 2 9) conversingService))).
Defined.
